(** * sentry_sdk: the Hub, its scope stack and the cron monitor

    A shallow embedding of [sentry_sdk/hub.py] and
    [sentry_sdk/crons/decorator.py].  Python objects live in a store and are
    named by references; methods are computations in a state monad whose
    result is either a returned value or a raised exception.  The store is
    kept on both outcomes, because a Python statement that raises leaves the
    mutations made before it in place. *)

From stdpp Require Import base option list gmap strings.
From Stdlib Require Import ZArith Lia ZifyBool.

Local Open Scope Z_scope.

(** ** References and plain data *)

Abbreviation HubRef := nat (only parsing).
Abbreviation ScopeRef := nat (only parsing).
Abbreviation ClientRef := nat (only parsing).
Abbreviation Ctx := nat (only parsing).
Abbreviation EventId := string (only parsing).
Abbreviation Event := (gmap string string) (only parsing).

(** A layer of [Hub._stack]: [Tuple[Optional[Client], Scope]]. *)
Abbreviation Layer := (option nat * nat)%type (only parsing).

(** Modelled from the spec: the class [Scope] of [sentry_sdk/scope.py] is
    missing.  The spec calls it a mutable contextual bag of tags, breadcrumbs
    and a propagation context; the propagation context is represented by its
    trace identifier. *)
Record Scope := mkScope {
  _tags : gmap string string;
  _breadcrumbs : list string;
  _propagation_context : nat
}.

Record Hub := mkHub {
  _stack : list Layer;
  _last_event_id : option EventId;
  _old_hubs : list HubRef
}.

Record _ScopeManager := mkScopeManager {
  _hub : HubRef;
  _original_len : Z;
  _layer : Layer
}.

(** ** Logging *)

Inductive Level := ERROR | WARNING | INFO.

Inductive Message :=
| Scope_popped_too_soon (too_many : Z)
| Leaked_scopes (count : Z) (leaked : list Layer)
| Wrong_scope_found (found meant : ScopeRef)
| Init_called_inside_of_pushed_scope
| Dropped_breadcrumb_because_no_client_bound.

(** ** Exceptions *)

Inductive exn :=
| IndexError
| AssertionError
| InvalidReference.

Inductive outcome (A : Type) :=
| Return (a : A)
| Raise (e : exn).
Arguments Return {A} a.
Arguments Raise {A} e.

(** ** The store *)

(** The objects of the program: the hubs and the scopes, each named by its
    index; the context variable [_local], one slot per execution context;
    what [logger] was given; and the supply of trace identifiers. *)
Record World := mkWorld {
  hubs : list Hub;
  scopes : list Scope;
  _local : gmap Ctx HubRef;
  logger : list (Level * Message);
  trace_ids : nat
}.

Definition M (A : Type) : Type := World → outcome A * World.

#[export] Instance M_ret : MRet M := λ A a w, (Return a, w).

#[export] Instance M_bind : MBind M := λ A B f m w,
  match m w with
  | (Return a, w') => f a w'
  | (Raise e, w') => (Raise e, w')
  end.

Definition raise {A} (e : exn) : M A := λ w, (Raise e, w).

Definition get_world : M World := λ w, (Return w, w).

Definition set_hubs (f : list Hub → list Hub) : M unit := λ w,
  (Return tt, mkWorld (f (hubs w)) (scopes w) (_local w) (logger w) (trace_ids w)).

Definition set_scopes (f : list Scope → list Scope) : M unit := λ w,
  (Return tt, mkWorld (hubs w) (f (scopes w)) (_local w) (logger w) (trace_ids w)).

Definition set_local (f : gmap Ctx HubRef → gmap Ctx HubRef) : M unit := λ w,
  (Return tt, mkWorld (hubs w) (scopes w) (f (_local w)) (logger w) (trace_ids w)).

(** Modelled from the spec: [logger] of [sentry_sdk/utils.py] is missing; a
    diagnostic only logs, so a call records its level and its message.  The
    filter installed on that logger reads [Hub.current.client] before a
    record goes out, and that read raises [IndexError] when the stack of the
    current hub is empty; the read is not part of [log], and what is proved
    of a logging call is meant for stores in which the hubs have a layer. *)
Definition log (lvl : Level) (msg : Message) : M unit := λ w,
  (Return tt,
   mkWorld (hubs w) (scopes w) (_local w) (logger w ++ [(lvl, msg)]) (trace_ids w)).

Definition next_trace_id : M nat := λ w,
  (Return (trace_ids w),
   mkWorld (hubs w) (scopes w) (_local w) (logger w) (S (trace_ids w))).

Definition of_option {A} (e : exn) (o : option A) : M A :=
  match o with
  | Some a => mret a
  | None => raise e
  end.

(** ** Python lists *)

(** [len(l)] *)
Definition len {A} (l : list A) : Z := Z.of_nat (length l).

(** [l[i]], with Python's negative indices; [None] stands for [IndexError]. *)
Definition getitem {A} (l : list A) (i : Z) : option A :=
  let j := if i <? 0 then i + len l else i in
  if (j <? 0) || (len l <=? j) then None else l !! Z.to_nat j.

(** The start of the slice [l[i:]], clamped as Python clamps it. *)
Definition slice_start {A} (l : list A) (i : Z) : nat :=
  Z.to_nat (if i <? 0 then Z.max 0 (i + len l) else Z.min i (len l)).

(** [l[i:]] *)
Definition slice_from {A} (l : list A) (i : Z) : list A :=
  drop (slice_start l i) l.

(** The list left by [del l[i:]]. *)
Definition del_from {A} (l : list A) (i : Z) : list A :=
  take (slice_start l i) l.

(** [l.pop()]: the last element and the list left; [None] stands for
    [IndexError]. *)
Definition pop {A} (l : list A) : option (A * list A) :=
  match getitem l (-1) with
  | Some x => Some (x, del_from l (-1))
  | None => None
  end.

(** ** Objects in the store *)

Definition get_hub (self : HubRef) : M Hub :=
  w ← get_world; of_option InvalidReference (hubs w !! self).

Definition put_hub (self : HubRef) (h : Hub) : M unit :=
  set_hubs (λ hs, <[self := h]> hs).

Definition new_hub (h : Hub) : M HubRef :=
  w ← get_world; set_hubs (λ hs, hs ++ [h]);; mret (length (hubs w)).

Definition get_scope (r : ScopeRef) : M Scope :=
  w ← get_world; of_option InvalidReference (scopes w !! r).

Definition put_scope (r : ScopeRef) (s : Scope) : M unit :=
  set_scopes (λ ss, <[r := s]> ss).

Definition new_scope (s : Scope) : M ScopeRef :=
  w ← get_world; set_scopes (λ ss, ss ++ [s]);; mret (length (scopes w)).

Definition set_stack (self : HubRef) (st : list Layer) : M unit :=
  h ← get_hub self; put_hub self (mkHub st (_last_event_id h) (_old_hubs h)).

Definition set_last_event_id (self : HubRef) (i : option EventId) : M unit :=
  h ← get_hub self; put_hub self (mkHub (_stack h) i (_old_hubs h)).

Definition set_old_hubs (self : HubRef) (l : list HubRef) : M unit :=
  h ← get_hub self; put_hub self (mkHub (_stack h) (_last_event_id h) l).

(** [self._stack[-1]] *)
Definition top (self : HubRef) : M Layer :=
  h ← get_hub self; of_option IndexError (getitem (_stack h) (-1)).

(** [self._stack[-1] = layer] *)
Definition set_top (self : HubRef) (layer : Layer) : M unit :=
  h ← get_hub self;
  match pop (_stack h) with
  | Some (_, below) => set_stack self (below ++ [layer])
  | None => raise IndexError
  end.

(** ** Scope *)

(** Modelled from the spec: [Scope()] of [sentry_sdk/scope.py] is missing; it
    makes a fresh scope, with no tags, no breadcrumbs and a propagation
    context of its own. *)
Definition Scope__init__ : M ScopeRef :=
  t ← next_trace_id; new_scope (mkScope ∅ [] t).

(** Modelled from the spec: [Scope.__copy__] is missing; [copy.copy(scope)]
    is the scope's [clone], an independent copy: a new object that starts
    with the fields of the original. *)
Definition copy_scope (scope : ScopeRef) : M ScopeRef :=
  s ← get_scope scope; new_scope s.

(** Modelled from the spec: [Scope.generate_propagation_context] is missing;
    it regenerates the propagation context with new trace and span
    identifiers. *)
Definition generate_propagation_context (scope : ScopeRef) : M unit :=
  s ← get_scope scope;
  t ← next_trace_id;
  put_scope scope (mkScope (_tags s) (_breadcrumbs s) t).

(** Modelled from the spec: [Scope.set_tag] is missing; it mutates the
    tags. *)
Definition set_tag (scope : ScopeRef) (key value : string) : M unit :=
  s ← get_scope scope;
  put_scope scope
    (mkScope (<[key := value]> (_tags s)) (_breadcrumbs s) (_propagation_context s)).

(** Modelled from the spec: [Scope.add_breadcrumb] is missing; it mutates the
    breadcrumb list. *)
Definition Scope_add_breadcrumb (scope : ScopeRef) (crumb : string) : M unit :=
  s ← get_scope scope;
  put_scope scope
    (mkScope (_tags s) (_breadcrumbs s ++ [crumb]) (_propagation_context s)).

(** The capture routines of [Scope], which are missing too: they hand the
    event to the client and give back the identifier the client answers
    with, if any.  They are parameters of the development. *)
Class ScopeCapture := {
  Scope_capture_event :
    ScopeRef → Event → option string → ClientRef → option ScopeRef →
    gmap string string → option EventId;
  Scope_capture_message :
    ScopeRef → string → option string → ClientRef → option ScopeRef →
    gmap string string → option EventId;
  Scope_capture_exception :
    ScopeRef → option string → ClientRef → option ScopeRef →
    gmap string string → option EventId
}.

(** ** _ScopeManager *)

Definition _ScopeManager__init__ (hub : HubRef) : M _ScopeManager :=
  h ← get_hub hub;
  layer ← of_option IndexError (getitem (_stack h) (-1));
  mret (mkScopeManager hub (len (_stack h)) layer).

Definition _ScopeManager__enter__ (self : _ScopeManager) : M ScopeRef :=
  mret (snd (_layer self)).

Definition _ScopeManager__exit__ (self : _ScopeManager) : M unit :=
  h ← get_hub (_hub self);
  let current_len := len (_stack h) in
  if current_len <? _original_len self then
    log ERROR (Scope_popped_too_soon (_original_len self - current_len))
  else
    (if current_len >? _original_len self then
       log WARNING
         (Leaked_scopes (current_len - _original_len self)
            (slice_from (_stack h) (_original_len self)))
     else mret tt);;
    layer ← of_option IndexError (getitem (_stack h) (_original_len self - 1));
    set_stack (_hub self) (del_from (_stack h) (_original_len self - 1));;
    if negb (bool_decide (snd layer = snd (_layer self))) then
      log ERROR (Wrong_scope_found (snd layer) (snd (_layer self)))
    else if negb (bool_decide (fst layer = fst (_layer self))) then
      log WARNING Init_called_inside_of_pushed_scope
    else mret tt.

(** [with manager as x: body]: the body runs, then [exit_] runs whether the
    body returned or raised; an exception of the body propagates afterwards
    (both [__exit__] methods here return [None]). *)
Definition with_ {A} (body : M A) (exit_ : M unit) : M A := λ w,
  match body w with
  | (Return a, w') =>
      match exit_ w' with
      | (Return _, w'') => (Return a, w'')
      | (Raise e, w'') => (Raise e, w'')
      end
  | (Raise e, w') =>
      match exit_ w' with
      | (Return _, w'') => (Raise e, w'')
      | (Raise e', w'') => (Raise e', w'')
      end
  end.

(** ** Hub *)

(** [GLOBAL_HUB = Hub()], the first object the module creates. *)
Definition GLOBAL_HUB : HubRef := 0%nat.

(** [Hub(client_or_hub, scope)]; [inl] carries a Hub, [inr] a Client. *)
Definition Hub__init__
    (client_or_hub : option (HubRef + ClientRef)) (scope : option ScopeRef) :
    M HubRef :=
  '(client, scope) ←
    match client_or_hub with
    | Some (inl hub) =>
        '(client, other_scope) ← top hub;
        match scope with
        | None => scope ← copy_scope other_scope; mret (client, Some scope)
        | Some _ => mret (client, scope)
        end
    | Some (inr client) => mret (Some client, scope)
    | None => mret (None, scope)
    end;
  scope ← match scope with
          | None => Scope__init__
          | Some scope => mret scope
          end;
  new_hub (mkHub [(client, scope)] None []).

(** The module's last two statements: [GLOBAL_HUB = Hub()] and
    [_local.set(GLOBAL_HUB)], run in the importing context. *)
Definition module_init (ctx : Ctx) : M unit :=
  g ← Hub__init__ None None; set_local (λ l, <[ctx := g]> l).

Definition empty_world : World := mkWorld [] [] ∅ [] 0%nat.

(** [HubMeta.current] *)
Definition current (ctx : Ctx) : M HubRef :=
  w ← get_world;
  match _local w !! ctx with
  | Some rv => mret rv
  | None =>
      rv ← Hub__init__ (Some (inl GLOBAL_HUB)) None;
      set_local (λ l, <[ctx := rv]> l);;
      mret rv
  end.

(** [HubMeta.main] *)
Definition main : M HubRef := mret GLOBAL_HUB.

Definition Hub__enter__ (ctx : Ctx) (self : HubRef) : M HubRef :=
  cur ← current ctx;
  h ← get_hub self;
  set_old_hubs self (_old_hubs h ++ [cur]);;
  set_local (λ l, <[ctx := self]> l);;
  mret self.

Definition Hub__exit__ (ctx : Ctx) (self : HubRef) : M unit :=
  h ← get_hub self;
  match pop (_old_hubs h) with
  | None => raise IndexError
  | Some (old, rest) =>
      set_old_hubs self rest;;
      set_local (λ l, <[ctx := old]> l)
  end.

Definition run {A} (ctx : Ctx) (self : HubRef) (callback : M A) : M A :=
  Hub__enter__ ctx self;;
  with_ callback (Hub__exit__ ctx self).

Definition client (self : HubRef) : M (option ClientRef) :=
  layer ← top self; mret (fst layer).

Definition scope (self : HubRef) : M ScopeRef :=
  layer ← top self; mret (snd layer).

Definition last_event_id (self : HubRef) : M (option EventId) :=
  h ← get_hub self; mret (_last_event_id h).

Definition bind_client (self : HubRef) (new : option ClientRef) : M unit :=
  top_ ← top self;
  set_top self (new, snd top_).

Section Capture.
Context `{ScopeCapture}.

Definition capture_event
    (self : HubRef) (event : Event) (hint : option string)
    (scope : option ScopeRef) (scope_kwargs : gmap string string) :
    M (option EventId) :=
  '(client, top_scope) ← top self;
  match client with
  | None => mret None
  | Some client =>
      let last_event_id :=
        Scope_capture_event top_scope event hint client scope scope_kwargs in
      let is_transaction :=
        bool_decide (event !! "type"%string = Some "transaction"%string) in
      (if bool_decide (last_event_id ≠ None) && negb is_transaction
       then set_last_event_id self last_event_id
       else mret tt);;
      mret last_event_id
  end.

Definition capture_message
    (self : HubRef) (message : string) (level : option string)
    (scope : option ScopeRef) (scope_kwargs : gmap string string) :
    M (option EventId) :=
  '(client, top_scope) ← top self;
  match client with
  | None => mret None
  | Some client =>
      let last_event_id :=
        Scope_capture_message top_scope message level client scope scope_kwargs in
      (if bool_decide (last_event_id ≠ None)
       then set_last_event_id self last_event_id
       else mret tt);;
      mret last_event_id
  end.

Definition capture_exception
    (self : HubRef) (error : option string)
    (scope : option ScopeRef) (scope_kwargs : gmap string string) :
    M (option EventId) :=
  '(client, top_scope) ← top self;
  match client with
  | None => mret None
  | Some client =>
      let last_event_id :=
        Scope_capture_exception top_scope error client scope scope_kwargs in
      (if bool_decide (last_event_id ≠ None)
       then set_last_event_id self last_event_id
       else mret tt);;
      mret last_event_id
  end.
End Capture.

(** [push_scope(callback=None, continue_trace=...)], the guarded form. *)
Definition push_scope (self : HubRef) (continue_trace : bool) : M _ScopeManager :=
  '(client, scope) ← top self;
  new_scope ← copy_scope scope;
  (if continue_trace then generate_propagation_context new_scope else mret tt);;
  let new_layer := (client, new_scope) in
  h ← get_hub self;
  set_stack self (_stack h ++ [new_layer]);;
  _ScopeManager__init__ self.

(** [push_scope(callback)]: the inner [self.push_scope()] takes the default
    [continue_trace=True]. *)
Definition push_scope_callback
    (self : HubRef) (callback : ScopeRef → M unit) : M unit :=
  manager ← push_scope self true;
  scope ← _ScopeManager__enter__ manager;
  with_ (callback scope) (_ScopeManager__exit__ manager).

Definition pop_scope_unsafe (self : HubRef) : M Layer :=
  h ← get_hub self;
  match pop (_stack h) with
  | None => raise IndexError
  | Some (rv, rest) =>
      set_stack self rest;;
      (if bool_decide (rest = []) then raise AssertionError else mret tt);;
      mret rv
  end.

(** [configure_scope(callback, continue_trace)] with a callback. *)
Definition configure_scope_callback
    (self : HubRef) (callback : ScopeRef → M unit) (continue_trace : bool) :
    M unit :=
  '(client, scope) ← top self;
  (if continue_trace then generate_propagation_context scope else mret tt);;
  match client with
  | Some _ => callback scope
  | None => mret tt
  end.

(** What the generator [inner] of [configure_scope] closes over. *)
Record inner := mkInner {
  inner_client : option ClientRef;
  inner_scope : ScopeRef
}.

(** [configure_scope(callback=None, continue_trace)]: the context manager
    [inner()]. *)
Definition configure_scope (self : HubRef) (continue_trace : bool) : M inner :=
  '(client, scope) ← top self;
  (if continue_trace then generate_propagation_context scope else mret tt);;
  mret (mkInner client scope).

(** Entering [inner()]: the generator runs up to its [yield]. *)
Definition inner__enter__ (self : inner) : M ScopeRef :=
  match inner_client self with
  | Some _ => mret (inner_scope self)
  | None => Scope__init__
  end.

(** ** crons/decorator.py *)

Module Crons.

Inductive MonitorStatus := IN_PROGRESS | OK | ERROR.

(** Exceptions a monitored body can raise.  [Exception] stands for that
    class and all its subclasses; the others derive from [BaseException]
    directly, so [except Exception] lets them pass. *)
Inductive BaseException :=
| Exception (name : string)
| KeyboardInterrupt
| SystemExit (code : Z)
| GeneratorExit.

(** [isinstance(e, Exception)] *)
Definition isinstance_Exception (e : BaseException) : bool :=
  match e with
  | Exception _ => true
  | _ => false
  end.

(** One call of [capture_checkin], with its keyword arguments. *)
Record CheckIn := mkCheckIn {
  monitor_slug : option string;
  check_in_id : option string;
  status : MonitorStatus;
  duration : option Z
}.

(** What the monitor can observe and change: the clock that [now()] reads,
    the check-ins captured so far, and the identifiers given to new
    check-ins. *)
Record State := mkState {
  clock : Z;
  captured : list CheckIn;
  uuid4 : nat → string
}.

Inductive result (A : Type) :=
| Returns (a : A)
| Raises (e : BaseException).
Arguments Returns {A} a.
Arguments Raises {A} e.

Definition C (A : Type) : Type := State → result A * State.

#[export] Instance C_ret : MRet C := λ A a s, (Returns a, s).

#[export] Instance C_bind : MBind C := λ A B f m s,
  match m s with
  | (Returns a, s') => f a s'
  | (Raises e, s') => (Raises e, s')
  end.

(** Modelled from the spec: [reraise] of [sentry_sdk.utils] is missing;
    applied to [sys.exc_info()] while [e] is being handled, it raises [e]
    again, unchanged. *)
Definition reraise {A} (e : BaseException) : C A := λ s, (Raises e, s).

(** [try: body / except Exception: handler]: the handler runs for the
    exceptions that are instances of [Exception] and for no others. *)
Definition try_except_Exception {A}
    (body : C A) (handler : BaseException → C A) : C A := λ s,
  match body s with
  | (Returns a, s') => (Returns a, s')
  | (Raises e, s') =>
      if isinstance_Exception e then handler e s' else (Raises e, s')
  end.

(** Modelled from the spec: [now] of [sentry_sdk.utils] is missing; it reads
    the clock. *)
Definition now : C Z := λ s, (Returns (clock s), s).

(** Modelled from the spec: [capture_checkin] of [sentry_sdk.crons] is
    missing; it captures a check-in: the call is recorded with its
    arguments, and it answers with the identifier passed in, or with a new
    one when none was passed. *)
Definition capture_checkin
    (monitor_slug : option string) (check_in_id : option string)
    (status : MonitorStatus) (duration : option Z) : C string := λ s,
  let id := match check_in_id with
            | Some id => id
            | None => uuid4 s (length (captured s))
            end in
  (Returns id,
   mkState (clock s)
     (captured s ++ [mkCheckIn monitor_slug check_in_id status duration])
     (uuid4 s)).

(** [with monitor(monitor_slug): body], or [body] decorated with
    [@monitor(monitor_slug)]. *)
Definition monitor (monitor_slug : option string) (body : C unit) : C unit :=
  start_timestamp ← now;
  check_in_id ← capture_checkin monitor_slug None IN_PROGRESS None;
  try_except_Exception body (λ exc_info,
    t ← now;
    let duration_s := t - start_timestamp in
    capture_checkin monitor_slug (Some check_in_id) ERROR (Some duration_s);;
    reraise exc_info);;
  t ← now;
  let duration_s := t - start_timestamp in
  capture_checkin monitor_slug (Some check_in_id) OK (Some duration_s);;
  mret tt.

End Crons.

(** ** Callers *)

(** A caller who pushes scopes on one hub and releases the guards in strict
    LIFO order: [Release] releases the guard acquired last among those still
    pending. *)
Inductive scope_op :=
| Push (continue_trace : bool)
| Release.

Fixpoint run_ops
    (self : HubRef) (ops : list scope_op) (pending : list _ScopeManager) :
    M (list _ScopeManager) :=
  match ops with
  | [] => mret pending
  | Push continue_trace :: ops =>
      guard ← push_scope self continue_trace;
      run_ops self ops (guard :: pending)
  | Release :: ops =>
      match pending with
      | guard :: pending =>
          _ScopeManager__exit__ guard;; run_ops self ops pending
      | [] => run_ops self ops []
      end
  end.

(** Every [Release] has a pending guard, and no guard is left pending. *)
Fixpoint balanced (ops : list scope_op) (pending : nat) : bool :=
  match ops with
  | [] => bool_decide (pending = 0%nat)
  | Push _ :: ops => balanced ops (S pending)
  | Release :: ops =>
      match pending with
      | O => false
      | S pending => balanced ops pending
      end
  end.

Section Programs.
Context `{ScopeCapture}.

(** What code running in one execution context can do with the hubs. *)
Inductive action :=
| Current
| Main
| Bind_client (hub : HubRef) (new : option ClientRef)
| Push_scope (hub : HubRef) (continue_trace : bool)
| Release_guard (guard : _ScopeManager)
| Pop_scope_unsafe (hub : HubRef)
| Capture_event (hub : HubRef) (event : Event) (hint : option string)
    (scope : option ScopeRef) (scope_kwargs : gmap string string)
| Capture_message (hub : HubRef) (message : string) (level : option string)
    (scope : option ScopeRef) (scope_kwargs : gmap string string)
| Capture_exception (hub : HubRef) (error : option string)
    (scope : option ScopeRef) (scope_kwargs : gmap string string)
| Configure_scope (hub : HubRef) (continue_trace : bool)
| Set_tag (scope : ScopeRef) (key value : string)
| Add_breadcrumb (scope : ScopeRef) (crumb : string).

Inductive prog :=
| Do (a : action)
| Seq (p q : prog)
| Try (p : prog)
| With_hub (hub : HubRef) (body : prog)
| With_push_scope (hub : HubRef) (callback : ScopeRef → prog)
| With_configure_scope (hub : HubRef) (continue_trace : bool)
    (callback : ScopeRef → prog).

Definition perform (ctx : Ctx) (a : action) : M unit :=
  match a with
  | Current => current ctx;; mret tt
  | Main => main;; mret tt
  | Bind_client hub new => bind_client hub new
  | Push_scope hub continue_trace => push_scope hub continue_trace;; mret tt
  | Release_guard guard => _ScopeManager__exit__ guard
  | Pop_scope_unsafe hub => pop_scope_unsafe hub;; mret tt
  | Capture_event hub event hint scope scope_kwargs =>
      capture_event hub event hint scope scope_kwargs;; mret tt
  | Capture_message hub message level scope scope_kwargs =>
      capture_message hub message level scope scope_kwargs;; mret tt
  | Capture_exception hub error scope scope_kwargs =>
      capture_exception hub error scope scope_kwargs;; mret tt
  | Configure_scope hub continue_trace =>
      manager ← configure_scope hub continue_trace;
      inner__enter__ manager;; mret tt
  | Set_tag scope key value => set_tag scope key value
  | Add_breadcrumb scope crumb => Scope_add_breadcrumb scope crumb
  end.

(** [try: p / except BaseException: pass] *)
Definition try_pass (p : M unit) : M unit := λ w, (Return tt, snd (p w)).

Fixpoint exec (ctx : Ctx) (p : prog) : M unit :=
  match p with
  | Do a => perform ctx a
  | Seq p q => exec ctx p;; exec ctx q
  | Try p => try_pass (exec ctx p)
  | With_hub hub body => run ctx hub (exec ctx body)
  | With_push_scope hub callback =>
      push_scope_callback hub (λ scope, exec ctx (callback scope))
  | With_configure_scope hub continue_trace callback =>
      configure_scope_callback hub (λ scope, exec ctx (callback scope))
        continue_trace
  end.
End Programs.

(** ** Well-formed stores *)

(** The scope of every layer of every hub is an object of the store. *)
Definition scopes_allocated (w : World) : Prop :=
  ∀ k h layer, hubs w !! k = Some h → layer ∈ _stack h →
    (snd layer < length (scopes w))%nat.

(** The trace identifiers in use were all handed out by the supply. *)
Definition trace_ids_used (w : World) : Prop :=
  ∀ r s, scopes w !! r = Some s → (_propagation_context s < trace_ids w)%nat.

(** Every hub has a layer: the invariant that [pop_scope_unsafe] asserts. *)
Definition stacks_have_a_layer (w : World) : Prop :=
  ∀ k h, hubs w !! k = Some h → _stack h ≠ [].

(** The depth of a hub's stack, when the hub exists. *)
Definition depth (w : World) (self : HubRef) : option Z :=
  h ← hubs w !! self; Some (len (_stack h)).

(** The world after a log entry was appended. *)
Definition logged (w : World) (lvl : Level) (msg : Message) : World :=
  mkWorld (hubs w) (scopes w) (_local w) (logger w ++ [(lvl, msg)]) (trace_ids w).

(** ** Relations between stores *)

(** The guards still pending, most recent first, over a base stack of depth
    [base]: each one belongs to the hub and recorded the depth right after
    its own push. *)
Fixpoint pending_ok (self : HubRef) (base : Z) (gs : list _ScopeManager) : Prop :=
  match gs with
  | [] => True
  | g :: gs' =>
      _hub g = self ∧ _original_len g = base + len gs' + 1 ∧
      pending_ok self base gs'
  end.

(** [preserves R m]: whatever [m] does, returning or raising, the store it
    leaves is related by [R] to the store it started from. *)
Definition preserves (R : World → World → Prop) {A} (m : M A) : Prop :=
  ∀ w, R w (snd (m w)).

(** What a balanced piece of code leaves alone, as seen from context [ctx]:
    the undo stack of every hub, and the hub that is current for [ctx] once
    one is bound. *)
Definition keeps_activation (ctx : Ctx) (w w' : World) : Prop :=
  (∀ k hk, hubs w !! k = Some hk →
     ∃ hk', hubs w' !! k = Some hk' ∧ _old_hubs hk' = _old_hubs hk) ∧
  (∀ c, _local w !! ctx = Some c → _local w' !! ctx = Some c).

(** Every hub that exists still exists, with its [_last_event_id]. *)
Definition keeps_last_event_id (w w' : World) : Prop :=
  ∀ k hk, hubs w !! k = Some hk →
    ∃ hk', hubs w' !! k = Some hk' ∧ _last_event_id hk' = _last_event_id hk.

(** ** Example stores *)

(** The store right after the module was imported in context [0]. *)
Definition initial_world : World := snd (module_init 0%nat empty_world).

(** The global hub with two more scopes pushed: depth 3. *)
Definition world_depth_3 : World :=
  snd ((push_scope GLOBAL_HUB true;; push_scope GLOBAL_HUB true) initial_world).

(** A guard taken at depth 3, and the store after its layer and one more were
    popped behind its back: depth 2. *)
Definition guard_at_3 : outcome _ScopeManager * World :=
  push_scope GLOBAL_HUB true world_depth_3.

Definition world_popped_twice : World :=
  snd ((pop_scope_unsafe GLOBAL_HUB;; pop_scope_unsafe GLOBAL_HUB) (snd guard_at_3)).



(** A client bound on the global hub. *)
Definition world_with_client : World :=
  snd (bind_client GLOBAL_HUB (Some 7%nat) initial_world).

(** Capture routines that answer every event with the identifier ["e1"]. *)
Definition capture_all : ScopeCapture := {|
  Scope_capture_event := λ _ _ _ _ _ _, Some "e1"%string;
  Scope_capture_message := λ _ _ _ _ _ _, Some "e1"%string;
  Scope_capture_exception := λ _ _ _ _ _, Some "e1"%string
|}.

(** ** The rest of hub.py *)

(** The integrations a client was set up with.  [get_integration] answers
    with objects of any class; the one attribute read here is [always_run] of
    [ExcepthookIntegration]. *)
Record Integration := mkIntegration {
  identifier : string;
  always_run : bool
}.

(** What the code below asks of modules that are missing: the [Client] class
    of [sentry_sdk/client.py], [event_from_exception] and
    [capture_internal_exception] of [sentry_sdk/utils.py], and whether the
    interpreter is interactive ([hasattr(sys, "ps1")]).  They are parameters
    of the development. *)
Class Collaborators := {
  Client_get_integration : ClientRef → string → option Integration;
  Client_close : ClientRef → M unit;
  event_from_exception : string → option ClientRef → M (Event * option string);
  capture_internal_exception : exn → M unit;
  has_ps1 : bool
}.

Record _InitGuard := mk_InitGuard {
  _client : option ClientRef
}.

Definition _InitGuard__enter__ (self : _InitGuard) : M _InitGuard :=
  mret self.

Definition _InitGuard__exit__ `{Collaborators} (self : _InitGuard) : M unit :=
  let c := _client self in
  match c with
  | Some c => Client_close c
  | None => mret tt
  end.

(** [_init], given the client that [Client] constructs from the arguments;
    [_check_python_deprecations()] does nothing. *)
Definition _init (ctx : Ctx) (client : ClientRef) : M _InitGuard :=
  hub ← current ctx;
  bind_client hub (Some client);;
  let rv := mk_InitGuard (Some client) in
  mret rv.

Definition get_integration `{Collaborators}
    (self : HubRef) (name_or_class : string) : M (option Integration) :=
  client ← client self;
  match client with
  | Some client => mret (Client_get_integration client name_or_class)
  | None => mret None
  end.

(** [add_breadcrumb(crumb)]: with a client, the crumb goes to the scope. *)
Definition add_breadcrumb (self : HubRef) (crumb : string) : M unit :=
  '(client, scope) ← top self;
  match client with
  | None => log INFO Dropped_breadcrumb_because_no_client_bound
  | Some client => Scope_add_breadcrumb scope crumb
  end.

(** ** integrations/excepthook.py *)

Definition _should_send `{Collaborators} (always_run : bool) : bool :=
  if always_run then true
  else if has_ps1 then false
  else true.

(** Modelled from the spec: [capture_internal_exceptions] of
    [sentry_sdk/utils.py] is missing; an exception raised inside its block
    is caught at the boundary, handed to [capture_internal_exception] to be
    logged, and suppressed. *)
Definition capture_internal_exceptions `{Collaborators} (body : M unit) : M unit :=
  λ w,
    match body w with
    | (Return _, w') => (Return tt, w')
    | (Raise e, w') => (capture_internal_exception e;; mret tt) w'
    end.

(** The closure that [_make_excepthook(old_excepthook)] returns, applied to
    [(type_, value, traceback)]. *)
Definition sentry_sdk_excepthook `{ScopeCapture} `{Collaborators} {A}
    (ctx : Ctx) (old_excepthook : string → M A) (exc_info : string) : M A :=
  hub ← current ctx;
  integration ← get_integration hub "excepthook";
  match integration with
  | Some integration =>
      if _should_send (always_run integration) then
        client ← client hub;
        capture_internal_exceptions
          ('(event, hint) ← event_from_exception exc_info client;
           capture_event hub event hint None ∅;;
           mret tt)
      else mret tt
  | None => mret tt
  end;;
  old_excepthook exc_info.

Definition _make_excepthook `{ScopeCapture} `{Collaborators} {A}
    (ctx : Ctx) (old_excepthook : string → M A) : string → M A :=
  sentry_sdk_excepthook ctx old_excepthook.

(** ** Nested monitors *)

(** [with monitor(s1): with monitor(s2): ... body] *)
Fixpoint monitors (slugs : list (option string)) (body : Crons.C unit) :
    Crons.C unit :=
  match slugs with
  | [] => body
  | monitor_slug :: slugs => Crons.monitor monitor_slug (monitors slugs body)
  end.

(** The check-ins that open the monitors of [slugs], outermost first. *)
Definition opening_check_ins (slugs : list (option string)) : list Crons.CheckIn :=
  map (λ monitor_slug,
         Crons.mkCheckIn monitor_slug None Crons.IN_PROGRESS None) slugs.

(** A check-in without its duration: the slug, the identifier and the
    status. *)
Definition check_in_summary (c : Crons.CheckIn) :
    option string * option string * Crons.MonitorStatus :=
  (Crons.monitor_slug c, Crons.check_in_id c, Crons.status c).

(** The check-ins that close them, innermost first and without their
    durations, when [n] check-ins were captured before the outermost monitor
    was entered. *)
Fixpoint closing_check_ins
    (uuid4 : nat → string) (n : nat) (slugs : list (option string))
    (status : Crons.MonitorStatus) :
    list (option string * option string * Crons.MonitorStatus) :=
  match slugs with
  | [] => []
  | monitor_slug :: slugs =>
      closing_check_ins uuid4 (S n) slugs status ++
      [(monitor_slug, Some (uuid4 n), status)]
  end.

(** Collaborators for the examples: every client has the excepthook
    integration, with [always_run] off, and the interpreter is not
    interactive. *)
Definition collaborators_example : Collaborators := {|
  Client_get_integration := λ _ name,
    if bool_decide (name = "excepthook"%string)
    then Some (mkIntegration "excepthook" false) else None;
  Client_close := λ _, mret tt;
  event_from_exception := λ exc_info _,
    mret (<["exception" := exc_info]> ∅, Some exc_info);
  capture_internal_exception := λ _, mret tt;
  has_ps1 := false
|}.

(** Calls of [add_breadcrumb], one after the other. *)
Fixpoint add_breadcrumbs (self : HubRef) (crumbs : list string) : M unit :=
  match crumbs with
  | [] => mret tt
  | crumb :: crumbs => add_breadcrumb self crumb;; add_breadcrumbs self crumbs
  end.

(** * Properties *)

(** ** Python lists *)

Lemma len_nonneg {A} (l : list A) : 0 ≤ len l.
Proof. unfold len. lia. Qed.

Lemma getitem_nat {A} (l : list A) (i : Z) :
  0 ≤ i < len l → getitem l i = l !! Z.to_nat i.
Proof.
  intros Hi. unfold getitem.
  destruct (i <? 0) eqn:E1; [lia|].
  destruct (i <? 0) eqn:E2; [lia|].
  destruct (len l <=? i) eqn:E3; [lia|]. done.
Qed.

Lemma getitem_Some_len {A} (l : list A) (i : Z) x :
  getitem l i = Some x → 1 ≤ len l.
Proof.
  destruct l; [|unfold len; simpl; lia].
  unfold getitem. case_match; [done|]. by rewrite lookup_nil.
Qed.

Lemma getitem_last {A} (l : list A) x : getitem (l ++ [x]) (-1) = Some x.
Proof.
  unfold getitem, len. rewrite length_app. simpl.
  case_match; [lia|].
  replace (Z.to_nat (-1 + Z.of_nat (length l + 1))) with (length l) by lia.
  by apply list_lookup_middle.
Qed.

Lemma del_from_app {A} (l k : list A) : del_from (l ++ k) (len l) = l.
Proof.
  unfold del_from, slice_start, len. rewrite length_app.
  case_match; [lia|].
  rewrite Z.min_l, Nat2Z.id by lia. by rewrite take_app_length.
Qed.

Lemma getitem_app_middle {A} (l k : list A) x :
  getitem (l ++ x :: k) (len l) = Some x.
Proof.
  rewrite getitem_nat.
  - unfold len. rewrite Nat2Z.id. by rewrite list_lookup_middle.
  - unfold len. rewrite length_app. simpl. lia.
Qed.

(** ** Running the monad *)

Create HintDb py discriminated.

#[local] Hint Unfold
  _ScopeManager__exit__ _ScopeManager__init__ _ScopeManager__enter__
  push_scope pop_scope_unsafe bind_client configure_scope
  configure_scope_callback inner__enter__ current main Hub__init__
  Hub__enter__ Hub__exit__ last_event_id
  copy_scope generate_propagation_context Scope__init__ set_tag
  Scope_add_breadcrumb top set_top set_stack set_last_event_id
  set_old_hubs put_hub new_hub get_hub put_scope new_scope get_scope
  log next_trace_id of_option raise get_world set_hubs set_scopes
  set_local mbind M_bind mret M_ret : py.

Ltac run_monad := repeat autounfold with py in *; simpl in *.

Lemma init_inv hub w0 g w0' :
  _ScopeManager__init__ hub w0 = (Return g, w0') →
  _hub g = hub ∧ 1 ≤ _original_len g.
Proof.
  run_monad. destruct (hubs w0 !! hub) as [h|] eqn:Hh; simpl; [|done].
  destruct (getitem (_stack h) (-1)) as [layer|] eqn:Hl; simpl; [|done].
  intros [= <- _]. simpl. split; [done|]. by eapply getitem_Some_len.
Qed.

Lemma exit_too_soon g w h :
  hubs w !! _hub g = Some h → len (_stack h) < _original_len g →
  _ScopeManager__exit__ g w =
    (Return tt,
     logged w ERROR (Scope_popped_too_soon (_original_len g - len (_stack h)))).
Proof.
  intros Hh Hlt. run_monad. rewrite Hh. simpl.
  destruct (len (_stack h) <? _original_len g) eqn:E; [done|lia].
Qed.

Lemma exit_pops g w h layer :
  hubs w !! _hub g = Some h → _original_len g ≤ len (_stack h) →
  getitem (_stack h) (_original_len g - 1) = Some layer →
  _ScopeManager__exit__ g w =
    (Return tt,
     mkWorld
       (<[_hub g := mkHub (del_from (_stack h) (_original_len g - 1))
                      (_last_event_id h) (_old_hubs h)]> (hubs w))
       (scopes w) (_local w)
       (logger w ++
        (if len (_stack h) >? _original_len g
         then [(WARNING, Leaked_scopes (len (_stack h) - _original_len g)
                           (slice_from (_stack h) (_original_len g)))]
         else []) ++
        (if negb (bool_decide (snd layer = snd (_layer g)))
         then [(ERROR, Wrong_scope_found (snd layer) (snd (_layer g)))]
         else if negb (bool_decide (fst layer = fst (_layer g)))
         then [(WARNING, Init_called_inside_of_pushed_scope)]
         else []))
       (trace_ids w)).
Proof.
  intros Hh Hle Hl. run_monad. rewrite Hh. simpl.
  destruct (len (_stack h) <? _original_len g) eqn:E; [lia|].
  destruct (len (_stack h) >? _original_len g) eqn:E2; simpl;
    rewrite Hl; simpl; rewrite Hh; simpl;
    destruct (bool_decide (layer.2 = (_layer g).2)); simpl;
    try destruct (bool_decide (layer.1 = (_layer g).1)); simpl;
    rewrite ?app_nil_r, <- ?app_assoc; reflexivity.
Qed.

Lemma exit_layer_exists g h :
  1 ≤ _original_len g ≤ len (_stack h) →
  is_Some (getitem (_stack h) (_original_len g - 1)).
Proof.
  intros Hle. rewrite getitem_nat by lia.
  apply lookup_lt_is_Some. unfold len in *. lia.
Qed.

Lemma len_app {A} (l k : list A) : len (l ++ k) = len l + len k.
Proof. unfold len. rewrite length_app. lia. Qed.

Lemma lookup_snoc {A} (l : list A) x : (l ++ [x]) !! length l = Some x.
Proof. by apply list_lookup_middle. Qed.

Lemma insert_snoc {A} (l : list A) x y : <[length l := y]> (l ++ [x]) = l ++ [y].
Proof. rewrite insert_app_r_alt by lia. by rewrite Nat.sub_diag. Qed.

Lemma push_scope_run w self continue_trace h client sc s :
  hubs w !! self = Some h →
  getitem (_stack h) (-1) = Some (client, sc) →
  scopes w !! sc = Some s →
  push_scope self continue_trace w =
    (Return (mkScopeManager self (len (_stack h) + 1) (client, length (scopes w))),
     mkWorld
       (<[self := mkHub (_stack h ++ [(client, length (scopes w))])
                    (_last_event_id h) (_old_hubs h)]> (hubs w))
       (scopes w ++
        [if continue_trace
         then mkScope (_tags s) (_breadcrumbs s) (trace_ids w) else s])
       (_local w) (logger w)
       (if continue_trace then S (trace_ids w) else trace_ids w)).
Proof.
  intros Hh Htop Hs. pose proof (lookup_lt_Some _ _ _ Hh) as Hlt.
  run_monad. destruct continue_trace;
    repeat (first [ rewrite Hh | rewrite Htop | rewrite Hs | rewrite lookup_snoc
                  | rewrite list_lookup_insert_eq by done
                  | rewrite getitem_last ]; simpl);
    rewrite ?insert_snoc, ?len_app; done.
Qed.

Lemma getitem_last_is_Some {A} (l : list A) :
  l ≠ [] → ∃ x, getitem l (-1) = Some x ∧ x ∈ l.
Proof.
  intros Hl. destruct (exists_last Hl) as [k [x ->]].
  exists x. split; [apply getitem_last|].
  apply elem_of_app. right. by apply list_elem_of_singleton.
Qed.

(** ** C1: pushes released in LIFO order *)

Lemma run_ops_restores self st0 ops :
  st0 ≠ [] →
  ∀ gs w h,
    hubs w !! self = Some h →
    _stack h = st0 ++ reverse (map _layer gs) →
    pending_ok self (len st0) gs →
    (∀ layer, layer ∈ _stack h → (snd layer < length (scopes w))%nat) →
    balanced ops (length gs) = true →
    ∃ w' ext,
      run_ops self ops gs w = (Return [], w') ∧
      hubs w' = <[self := mkHub st0 (_last_event_id h) (_old_hubs h)]> (hubs w) ∧
      scopes w' = scopes w ++ ext ∧
      logger w' = logger w ∧ _local w' = _local w.
Proof.
  intros Hst0. induction ops as [|op ops IH]; intros gs w h Hh Hst Hok Hal Hbal.
  - simpl in Hbal. apply bool_decide_eq_true in Hbal.
    destruct gs; [|done]. simpl in Hst. rewrite app_nil_r in Hst.
    exists w, []. simpl. unfold mret, M_ret. repeat split; try done.
    + rewrite list_insert_id; [done|]. rewrite Hh. destruct h. simpl in *. by subst.
    + by rewrite app_nil_r.
  - destruct op as [ct|].
    + (* push *)
      destruct (getitem_last_is_Some (_stack h)) as [[cl sc] [Htop Hin]].
      { rewrite Hst. destruct st0; done. }
      destruct (lookup_lt_is_Some_2 (scopes w) sc) as [s Hs]; [by apply (Hal _ Hin)|].
      simpl. unfold mbind, M_bind.
      rewrite (push_scope_run w self ct h cl sc s) by done.
      set (g := mkScopeManager self (len (_stack h) + 1) (cl, length (scopes w))).
      match goal with |- context [run_ops self ops (g :: gs) ?w1] => set (w1' := w1) end.
      destruct (IH (g :: gs) w1'
                  (mkHub (_stack h ++ [(cl, length (scopes w))])
                     (_last_event_id h) (_old_hubs h)))
        as (w' & ext & Hrun & Hhubs & Hsc & Hlog & Hloc).
      * simpl. apply list_lookup_insert_eq. by eapply lookup_lt_Some.
      * simpl. rewrite Hst, reverse_cons. simpl. by rewrite app_assoc.
      * simpl. repeat split; [|done]. rewrite Hst, !len_app.
        unfold len. rewrite length_reverse, length_map. lia.
      * simpl. intros layer Hl. rewrite length_app. simpl.
        apply elem_of_app in Hl as [Hl|Hl].
        -- specialize (Hal _ Hl). lia.
        -- apply list_elem_of_singleton in Hl. subst. simpl. lia.
      * done.
      * exists w',
          ([if ct then mkScope (_tags s) (_breadcrumbs s) (trace_ids w) else s]
             ++ ext).
        rewrite Hrun. repeat split; try done.
        -- rewrite Hhubs. simpl. by rewrite list_insert_insert_eq.
        -- rewrite Hsc. simpl. by rewrite <- app_assoc.
    + (* release *)
      destruct gs as [|g gs]; [done|].
      destruct Hok as (Hg & Hlen & Hok). simpl in Hst, Hbal.
      rewrite reverse_cons, app_assoc in Hst.
      assert (len (st0 ++ reverse (map _layer gs)) = _original_len g - 1) as Hl1.
      { rewrite len_app, Hlen. unfold len. rewrite length_reverse, length_map. lia. }
      simpl. unfold mbind, M_bind.
      rewrite (exit_pops g w h (_layer g)); [|by rewrite Hg| |].
      * rewrite Hst, <- Hl1, del_from_app, ?Hl1.
        replace (len ((st0 ++ reverse (map _layer gs)) ++ [_layer g]) >? _original_len g)
          with false by (rewrite len_app, Hl1; unfold len; simpl; lia).
        rewrite !bool_decide_eq_true_2 by done. simpl. rewrite app_nil_r.
        match goal with |- context [run_ops self ops gs ?w1] => set (w1' := w1) end.
        destruct (IH gs w1'
                    (mkHub (st0 ++ reverse (map _layer gs))
                       (_last_event_id h) (_old_hubs h)))
          as (w' & ext & Hrun & Hhubs & Hsc & Hlog & Hloc); try done.
        -- simpl. rewrite Hg. apply list_lookup_insert_eq. by eapply lookup_lt_Some.
        -- simpl. intros layer Hl. apply Hal. rewrite Hst.
           apply elem_of_app. by left.
        -- exists w', ext. rewrite Hrun. repeat split; try done.
           rewrite Hhubs. simpl. by rewrite Hg, list_insert_insert_eq.
      * rewrite Hst, len_app, Hl1. unfold len. simpl. lia.
      * rewrite Hst, <- Hl1. apply getitem_app_middle.
Qed.

(** C1: on a hub whose stack is not empty, any sequence of [push_scope] calls
    whose guards are all released, in strict LIFO order, runs without raising
    and leaves the hub as it was: the depth is the one before the sequence,
    every layer is at its index with the client and the scope object it had,
    the scope objects that existed keep their contents, and nothing is
    logged. *)
Theorem lifo_push_release_restores_stack self ops w h :
  hubs w !! self = Some h →
  _stack h ≠ [] →
  scopes_allocated w →
  balanced ops 0 = true →
  ∃ w',
    run_ops self ops [] w = (Return [], w') ∧
    hubs w' !! self = Some h ∧
    depth w' self = depth w self ∧
    (∀ i layer, _stack h !! i = Some layer →
       ∃ h', hubs w' !! self = Some h' ∧ _stack h' !! i = Some layer ∧
             scopes w' !! snd layer = scopes w !! snd layer) ∧
    logger w' = logger w.
Proof.
  intros Hh Hne Hal Hbal.
  destruct (run_ops_restores self (_stack h) ops Hne [] w h)
    as (w' & ext & Hrun & Hhubs & Hsc & Hlog & _); try done.
  { simpl. by rewrite app_nil_r. }
  { intros layer Hl. by eapply Hal. }
  assert (hubs w' = hubs w) as Heq.
  { rewrite Hhubs. apply list_insert_id. rewrite Hh. by destruct h. }
  exists w'. rewrite Hrun. repeat split; try done.
  - by rewrite Heq.
  - unfold depth. by rewrite Heq.
  - intros i layer Hi. exists h. rewrite Heq. repeat split; try done.
    rewrite Hsc. apply lookup_app_l. eapply Hal; [done|].
    by eapply list_elem_of_lookup_2.
Qed.

Lemma lifo_push_release_restores_stack_witness :
  ∃ w',
    run_ops GLOBAL_HUB [Push true; Push false; Release; Release; Push true; Release]
      [] initial_world = (Return [], w') ∧
    hubs w' !! GLOBAL_HUB = Some (mkHub [(None, 0%nat)] None []) ∧
    depth w' GLOBAL_HUB = depth initial_world GLOBAL_HUB ∧
    (∀ i layer, _stack (mkHub [(None, 0%nat)] None []) !! i = Some layer →
       ∃ h', hubs w' !! GLOBAL_HUB = Some h' ∧ _stack h' !! i = Some layer ∧
             scopes w' !! snd layer = scopes initial_world !! snd layer) ∧
    logger w' = logger initial_world.
Proof.
  apply (lifo_push_release_restores_stack GLOBAL_HUB
           [Push true; Push false; Release; Release; Push true; Release]
           initial_world (mkHub [(None, 0%nat)] None [])).
  - reflexivity.
  - discriminate.
  - intros k h layer Hk Hl. destruct k; [|done].
    vm_compute in Hk. injection Hk as <-.
    apply list_elem_of_singleton in Hl. subst. vm_compute. lia.
  - reflexivity.
Defined.

Lemma len_del_from {A} (l : list A) (i : Z) :
  0 ≤ i ≤ len l → len (del_from l i) = i.
Proof.
  intros Hi. unfold del_from, slice_start, len in *.
  destruct (i <? 0) eqn:E; [lia|].
  rewrite length_take. lia.
Qed.

Lemma push_scope_inv self continue_trace w g w' :
  push_scope self continue_trace w = (Return g, w') →
  ∃ h client sc s,
    hubs w !! self = Some h ∧ getitem (_stack h) (-1) = Some (client, sc) ∧
    scopes w !! sc = Some s.
Proof.
  intros Hrun. run_monad.
  destruct (hubs w !! self) as [h|] eqn:Hh; simpl in Hrun; [|done].
  destruct (getitem (_stack h) (-1)) as [[cl sc]|] eqn:Htop; simpl in Hrun; [|done].
  destruct (scopes w !! sc) as [s|] eqn:Hs; simpl in Hrun; [|done].
  by exists h, cl, sc, s.
Qed.

(** ** C4: releasing a guard *)

Lemma stack_of_len_nonempty {A} (l : list A) : 1 ≤ len l → l ≠ [].
Proof. intros Hl ->. unfold len in Hl. simpl in Hl. lia. Qed.

Lemma len_of_nonempty {A} (l : list A) : l ≠ [] → 1 ≤ len l.
Proof. destruct l; [done|]. unfold len. simpl. lia. Qed.

(** Where every hub has a layer, a guard that [push_scope] returned can be
    released whatever happened to the stack of its hub since: the release
    returns, and all it changes is the stack of that hub and the log, to
    which it only appends.  Every hub has a layer afterwards as well. *)
Lemma release_returns_where_hubs_have_a_layer
    self continue_trace w0 g w0' w h :
  push_scope self continue_trace w0 = (Return g, w0') →
  stacks_have_a_layer w →
  hubs w !! self = Some h →
  ∃ w', _ScopeManager__exit__ g w = (Return tt, w') ∧
        scopes w' = scopes w ∧ _local w' = _local w ∧
        trace_ids w' = trace_ids w ∧
        (∀ k, k ≠ self → hubs w' !! k = hubs w !! k) ∧
        (∃ entries, logger w' = logger w ++ entries) ∧
        stacks_have_a_layer w'.
Proof.
  intros Hpush Hlayers Hh.
  destruct (push_scope_inv _ _ _ _ _ Hpush) as (h0 & cl & sc & s & Hh0 & Htop & Hs).
  rewrite (push_scope_run w0 self continue_trace h0 cl sc s) in Hpush by done.
  injection Hpush as <- <-.
  pose proof (getitem_Some_len _ _ _ Htop) as Hlen0.
  set (g := mkScopeManager self (len (_stack h0) + 1) (cl, length (scopes w0))).
  destruct (Z.lt_ge_cases (len (_stack h)) (_original_len g)) as [Hlt|Hge].
  - rewrite (exit_too_soon g w h) by done. eexists. split; [done|].
    simpl. repeat split; try done. by eexists.
  - destruct (exit_layer_exists g h) as [layer Hl]; [subst g; simpl in *; lia|].
    rewrite (exit_pops g w h layer) by done. eexists. split; [done|].
    subst g. simpl in *. repeat split; try done.
    + intros k Hk. by rewrite list_lookup_insert_ne.
    + by eexists.
    + intros k hk Hk. simpl in Hk.
      destruct (decide (self = k)) as [<-|Hne].
      * rewrite list_lookup_insert_eq in Hk by (by eapply lookup_lt_Some).
        injection Hk as <-. simpl. apply stack_of_len_nonempty.
        rewrite len_del_from by lia. lia.
      * rewrite list_lookup_insert_ne in Hk by done. by eapply Hlayers.
Qed.


(** ** C3: releasing a guard after the stack was popped behind its back *)

(** C3, as stated, fails.  A guard is taken on a hub of depth 3, so the
    pre-push depth is 3; two layers are then popped behind its back, so the
    depth at release is 2, strictly less than 3.  The release returns and
    leaves the stack alone, but the number it logs is 2, the distance to the
    depth 4 that the guard recorded after its push, not the shortfall 1 from
    the pre-push depth. *)
Lemma release_logs_shortfall_from_pre_push_depth_fails :
  depth world_depth_3 GLOBAL_HUB = Some 3 ∧
  fst guard_at_3 = Return (mkScopeManager GLOBAL_HUB 4 (None, 3%nat)) ∧
  depth world_popped_twice GLOBAL_HUB = Some 2 ∧
  _ScopeManager__exit__ (mkScopeManager GLOBAL_HUB 4 (None, 3%nat))
      world_popped_twice =
    (Return tt, logged world_popped_twice ERROR (Scope_popped_too_soon 2)) ∧
  _ScopeManager__exit__ (mkScopeManager GLOBAL_HUB 4 (None, 3%nat))
      world_popped_twice ≠
    (Return tt, logged world_popped_twice ERROR (Scope_popped_too_soon (3 - 2))).
Proof.
  repeat split; try (vm_compute; reflexivity).
  vm_compute. intros Heq. discriminate Heq.
Qed.

(** C3, amended: the depth a guard records is the depth right after its own
    push, one more than the pre-push depth.  In a store where every hub has
    a layer, when the depth at release is strictly less than the recorded
    depth, that is, at most the pre-push depth, the release logs one error
    with the recorded depth minus the current depth, and returns with the
    stack and the rest of the store as they were.  A guard left pending by an
    out-of-order release of an older guard of the same hub finds itself in
    that case, on a stack that still has a layer: its own release returns
    normally and logs that error.  Nothing is said of a store in which a
    stack was emptied. *)
Theorem release_below_recorded_depth self continue_trace w0 h0 g w1 :
  hubs w0 !! self = Some h0 →
  push_scope self continue_trace w0 = (Return g, w1) →
  _hub g = self ∧
  _original_len g = len (_stack h0) + 1 ∧
  (∀ w h,
     stacks_have_a_layer w →
     hubs w !! self = Some h →
     len (_stack h) < len (_stack h0) + 1 →
     _ScopeManager__exit__ g w =
       (Return tt,
        logged w ERROR
          (Scope_popped_too_soon (len (_stack h0) + 1 - len (_stack h))))) ∧
  (∀ younger w h,
     stacks_have_a_layer w →
     _hub younger = self →
     _original_len g < _original_len younger →
     hubs w !! self = Some h →
     ∃ w' h',
       _ScopeManager__exit__ g w = (Return tt, w') ∧
       stacks_have_a_layer w' ∧
       hubs w' !! self = Some h' ∧
       1 ≤ len (_stack h') < _original_len younger ∧
       _ScopeManager__exit__ younger w' =
         (Return tt,
          logged w' ERROR
            (Scope_popped_too_soon (_original_len younger - len (_stack h'))))).
Proof.
  intros Hh0 Hpush.
  destruct (push_scope_inv _ _ _ _ _ Hpush) as (h & cl & sc & s & Hh & Htop & Hs).
  rewrite Hh0 in Hh. injection Hh as <-.
  pose proof (getitem_Some_len _ _ _ Htop) as Hlen0.
  rewrite (push_scope_run w0 self continue_trace h0 cl sc s) in Hpush by done.
  injection Hpush as <- <-. simpl.
  split; [done|]. split; [done|]. split.
  - intros w h _ Hh Hlt.
    by rewrite (exit_too_soon _ w h).
  - intros younger w h Hlayers Hy Hlt Hh.
    set (g := mkScopeManager self (len (_stack h0) + 1) (cl, length (scopes w0))).
    pose proof (len_of_nonempty _ (Hlayers _ _ Hh)) as Hone.
    destruct (Z.lt_ge_cases (len (_stack h)) (_original_len g)) as [Hsoon|Hge].
    + rewrite (exit_too_soon g w h) by done.
      eexists _, h. split; [reflexivity|]. split; [exact Hlayers|].
      split; [exact Hh|].
      subst g. simpl in *. split; [lia|].
      apply exit_too_soon; [by rewrite Hy|lia].
    + destruct (exit_layer_exists g h) as [layer Hl]; [subst g; simpl in *; lia|].
      rewrite (exit_pops g w h layer) by done.
      subst g. simpl in *.
      eexists _, _. split; [reflexivity|]. simpl.
      split.
      { intros k hk Hk. simpl in Hk.
        destruct (decide (self = k)) as [<-|Hne].
        - rewrite list_lookup_insert_eq in Hk by (by eapply lookup_lt_Some).
          injection Hk as <-. simpl. apply stack_of_len_nonempty.
          rewrite len_del_from by lia. lia.
        - rewrite list_lookup_insert_ne in Hk by done. by eapply Hlayers. }
      split; [apply list_lookup_insert_eq; by eapply lookup_lt_Some|].
      simpl. rewrite len_del_from by lia.
      split; [lia|].
      erewrite exit_too_soon; cycle 1.
      * rewrite Hy. simpl. apply list_lookup_insert_eq. by eapply lookup_lt_Some.
      * simpl. rewrite len_del_from by lia. lia.
      * simpl. by rewrite len_del_from by lia.
Qed.

(** ** What every operation leaves alone *)

Section Preserved.
Variable R : World → World → Prop.
Context `{!PreOrder R}.

(** [R] does not look at the scope objects, the log or the trace ids. *)
Hypothesis R_frame : ∀ w sc lg t,
  R w (mkWorld (hubs w) sc (_local w) lg t).

(** [R] does not look at the layers of a hub. *)
Hypothesis R_stack : ∀ w self h st,
  hubs w !! self = Some h →
  R w (mkWorld
         (<[self := mkHub st (_last_event_id h) (_old_hubs h)]> (hubs w))
         (scopes w) (_local w) (logger w) (trace_ids w)).

(** [R] does not mind new hubs. *)
Hypothesis R_new_hub : ∀ w h,
  R w (mkWorld (hubs w ++ [h]) (scopes w) (_local w) (logger w) (trace_ids w)).

Lemma preserves_ret {A} (a : A) : preserves R (mret a).
Proof. intros w. simpl. reflexivity. Qed.

Lemma preserves_raise {A} e : preserves R (raise (A := A) e).
Proof. intros w. simpl. reflexivity. Qed.

Lemma preserves_bind {A B} (m : M A) (f : A → M B) :
  preserves R m → (∀ a, preserves R (f a)) → preserves R (m ≫= f).
Proof.
  intros Hm Hf w. unfold mbind, M_bind. specialize (Hm w).
  destruct (m w) as [[a|e] w1]; simpl in *; [|done].
  transitivity w1; [done|apply Hf].
Qed.

Lemma preserves_with {A} (body : M A) (exit_ : M unit) :
  preserves R body → preserves R exit_ → preserves R (with_ body exit_).
Proof.
  intros Hb He w. unfold with_. specialize (Hb w).
  destruct (body w) as [[a|e] w1]; simpl in *; specialize (He w1);
    destruct (exit_ w1) as [[[]|e'] w2]; simpl in *; by transitivity w1.
Qed.

Lemma preserves_of_option {A} e (o : option A) : preserves R (of_option e o).
Proof. destruct o; [apply preserves_ret|apply preserves_raise]. Qed.

Lemma preserves_get_world : preserves R get_world.
Proof. intros w. simpl. reflexivity. Qed.

Lemma preserves_set_scopes f : preserves R (set_scopes f).
Proof. intros w. simpl. apply R_frame. Qed.

Lemma preserves_log lvl msg : preserves R (log lvl msg).
Proof. intros w. simpl. apply R_frame. Qed.

Lemma preserves_next_trace_id : preserves R next_trace_id.
Proof. intros w. simpl. apply R_frame. Qed.

Lemma preserves_get_hub self : preserves R (get_hub self).
Proof.
  apply preserves_bind; [apply preserves_get_world|].
  intros w. apply preserves_of_option.
Qed.

Lemma preserves_set_stack self st : preserves R (set_stack self st).
Proof.
  intros w. unfold set_stack, get_hub, get_world, put_hub, set_hubs,
    of_option, mbind, M_bind, mret, M_ret, raise. simpl.
  destruct (hubs w !! self) as [h|] eqn:Hh; simpl; [|reflexivity].
  by apply R_stack.
Qed.

Lemma preserves_new_hub h : preserves R (new_hub h).
Proof. intros w. simpl. apply R_new_hub. Qed.

Ltac preserves_tac :=
  repeat first
    [ apply preserves_ret | apply preserves_raise | apply preserves_of_option
    | apply preserves_get_world | apply preserves_set_scopes
    | apply preserves_log | apply preserves_next_trace_id
    | apply preserves_get_hub | apply preserves_set_stack
    | apply preserves_new_hub
    | assumption
    | match goal with
      | H : ∀ _, preserves _ _ |- _ => apply H
      | H : ∀ _ _, preserves _ _ |- _ => apply H
      end
    | apply preserves_bind; [|intros]
    | apply preserves_with
    | match goal with
      | |- preserves _ (let _ := _ in _) => cbv zeta
      | |- preserves _ (match ?x with _ => _ end) => destruct x
      end ].

Lemma preserves_get_scope r : preserves R (get_scope r).
Proof. unfold get_scope. preserves_tac. Qed.

Lemma preserves_put_scope r s : preserves R (put_scope r s).
Proof. unfold put_scope. preserves_tac. Qed.

Lemma preserves_new_scope s : preserves R (new_scope s).
Proof. unfold new_scope. preserves_tac. Qed.

Lemma preserves_Scope__init__ : preserves R Scope__init__.
Proof. unfold Scope__init__. preserves_tac. Qed.

Lemma preserves_copy_scope r : preserves R (copy_scope r).
Proof.
  unfold copy_scope. preserves_tac.
Qed.

Lemma preserves_generate_propagation_context r :
  preserves R (generate_propagation_context r).
Proof.
  unfold generate_propagation_context. preserves_tac.
Qed.

Lemma preserves_set_tag r key value : preserves R (set_tag r key value).
Proof.
  unfold set_tag. preserves_tac.
Qed.

Lemma preserves_Scope_add_breadcrumb r crumb :
  preserves R (Scope_add_breadcrumb r crumb).
Proof.
  unfold Scope_add_breadcrumb. preserves_tac.
Qed.

Lemma preserves_top self : preserves R (top self).
Proof. unfold top. preserves_tac. Qed.

Lemma preserves_set_top self layer : preserves R (set_top self layer).
Proof. unfold set_top. preserves_tac. Qed.

Lemma preserves_bind_client self new : preserves R (bind_client self new).
Proof.
  unfold bind_client. preserves_tac.
Qed.

Lemma preserves__ScopeManager__init__ hub :
  preserves R (_ScopeManager__init__ hub).
Proof. unfold _ScopeManager__init__. preserves_tac. Qed.

Lemma preserves__ScopeManager__exit__ g :
  preserves R (_ScopeManager__exit__ g).
Proof. unfold _ScopeManager__exit__. preserves_tac. Qed.

Lemma preserves_push_scope self continue_trace :
  preserves R (push_scope self continue_trace).
Proof.
  unfold push_scope. preserves_tac.
Qed.

Lemma preserves_push_scope_callback self callback :
  (∀ scope, preserves R (callback scope)) →
  preserves R (push_scope_callback self callback).
Proof.
  intros Hc. unfold push_scope_callback, _ScopeManager__enter__.
  preserves_tac.
Qed.

Lemma preserves_pop_scope_unsafe self : preserves R (pop_scope_unsafe self).
Proof. unfold pop_scope_unsafe. preserves_tac. Qed.

Lemma preserves_configure_scope_callback self callback continue_trace :
  (∀ scope, preserves R (callback scope)) →
  preserves R (configure_scope_callback self callback continue_trace).
Proof.
  intros Hc. unfold configure_scope_callback.
  preserves_tac.
Qed.

Lemma preserves_configure_scope self continue_trace :
  preserves R (configure_scope self continue_trace).
Proof.
  unfold configure_scope.
  preserves_tac.
Qed.

Lemma preserves_inner__enter__ cm : preserves R (inner__enter__ cm).
Proof.
  unfold inner__enter__. preserves_tac.
Qed.

Lemma preserves_Hub__init__ client_or_hub scope :
  preserves R (Hub__init__ client_or_hub scope).
Proof.
  unfold Hub__init__.
  preserves_tac.
Qed.

Lemma preserves_try_pass (p : M unit) : preserves R p → preserves R (try_pass p).
Proof. intros Hp w. apply Hp. Qed.

(** The operations that depend on what [R] says about [_last_event_id],
    [_old_hubs] and [_local]. *)
Context `{ScopeCapture}.
Variable ctx : Ctx.

Hypothesis R_last_event_id : ∀ self i, preserves R (set_last_event_id self i).
Hypothesis R_current : preserves R (current ctx).
Hypothesis R_run : ∀ hub (body : M unit),
  preserves R body → preserves R (run ctx hub body).

Lemma preserves_capture_event self event hint scope scope_kwargs :
  preserves R (capture_event self event hint scope scope_kwargs).
Proof. unfold capture_event. preserves_tac. Qed.

Lemma preserves_capture_message self message level scope scope_kwargs :
  preserves R (capture_message self message level scope scope_kwargs).
Proof. unfold capture_message. preserves_tac. Qed.

Lemma preserves_capture_exception self error scope scope_kwargs :
  preserves R (capture_exception self error scope scope_kwargs).
Proof. unfold capture_exception. preserves_tac. Qed.

Lemma preserves_perform a : preserves R (perform ctx a).
Proof.
  destruct a; simpl; unfold main;
    first [ apply preserves_bind_client | apply preserves__ScopeManager__exit__
          | apply preserves_set_tag | apply preserves_Scope_add_breadcrumb
          | apply preserves_bind; [|intros; try apply preserves_ret] ];
    first [ apply R_current | apply preserves_ret | apply preserves_push_scope
          | apply preserves_pop_scope_unsafe | apply preserves_capture_event
          | apply preserves_capture_message | apply preserves_capture_exception
          | apply preserves_configure_scope | idtac ].
  apply preserves_bind; [apply preserves_inner__enter__|].
  intros. apply preserves_ret.
Qed.

Lemma preserves_exec p : preserves R (exec ctx p).
Proof.
  induction p as [a|p IHp q IHq|p IHp|hub body IH|hub cb IH|hub ct cb IH]; simpl.
  - apply preserves_perform.
  - apply preserves_bind; [done|]. by intros _.
  - by apply preserves_try_pass.
  - by apply R_run.
  - by apply preserves_push_scope_callback.
  - by apply preserves_configure_scope_callback.
Qed.
End Preserved.

(** ** Hub.current, Hub.__enter__ and Hub.__exit__ *)

Lemma current_bound ctx w rv :
  _local w !! ctx = Some rv → current ctx w = (Return rv, w).
Proof. intros Hl. run_monad. by rewrite Hl. Qed.

Lemma current_unbound ctx w g client sc s :
  _local w !! ctx = None →
  hubs w !! GLOBAL_HUB = Some g →
  getitem (_stack g) (-1) = Some (client, sc) →
  scopes w !! sc = Some s →
  current ctx w =
    (Return (length (hubs w)),
     mkWorld (hubs w ++ [mkHub [(client, length (scopes w))] None []])
       (scopes w ++ [s]) (<[ctx := length (hubs w)]> (_local w))
       (logger w) (trace_ids w)).
Proof.
  intros Hl Hg Htop Hs. run_monad. rewrite Hl. simpl.
  unfold GLOBAL_HUB in *. rewrite Hg. simpl. rewrite Htop. simpl.
  by rewrite Hs.
Qed.

Lemma current_returns_bound ctx w rv w' :
  current ctx w = (Return rv, w') → _local w' !! ctx = Some rv.
Proof.
  destruct (_local w !! ctx) as [c|] eqn:Hl.
  - rewrite (current_bound ctx w c) by done. by intros [= <- <-].
  - run_monad. rewrite Hl. simpl.
    destruct (hubs w !! GLOBAL_HUB) as [g|]; simpl; [|done].
    destruct (getitem (_stack g) (-1)) as [[cl sc]|]; simpl; [|done].
    destruct (scopes w !! sc) as [s|]; simpl; [|done].
    intros [= <- <-]. simpl. apply lookup_insert_eq.
Qed.

Lemma pop_snoc {A} (l : list A) x : pop (l ++ [x]) = Some (x, l).
Proof.
  unfold pop. rewrite getitem_last. f_equal. f_equal.
  unfold del_from, slice_start. simpl.
  rewrite len_app. unfold len. simpl.
  rewrite Z.max_r by lia.
  replace (Z.to_nat (-1 + (Z.of_nat (length l) + Z.of_nat 1))) with (length l)
    by lia.
  by rewrite take_app_length.
Qed.

Lemma pop_nil {A} : pop (@nil A) = None.
Proof. reflexivity. Qed.

Lemma Hub__enter__run ctx self w cur wc h :
  current ctx w = (Return cur, wc) →
  hubs wc !! self = Some h →
  Hub__enter__ ctx self w =
    (Return self,
     mkWorld
       (<[self := mkHub (_stack h) (_last_event_id h) (_old_hubs h ++ [cur])]>
          (hubs wc))
       (scopes wc) (<[ctx := self]> (_local wc)) (logger wc) (trace_ids wc)).
Proof.
  intros Hc Hh. unfold Hub__enter__, mbind, M_bind. rewrite Hc.
  run_monad. rewrite Hh. simpl. by rewrite Hh.
Qed.

Lemma Hub__exit__run ctx self w h rest old :
  hubs w !! self = Some h →
  _old_hubs h = rest ++ [old] →
  Hub__exit__ ctx self w =
    (Return tt,
     mkWorld
       (<[self := mkHub (_stack h) (_last_event_id h) rest]> (hubs w))
       (scopes w) (<[ctx := old]> (_local w)) (logger w) (trace_ids w)).
Proof.
  intros Hh Ho. run_monad. rewrite Hh. simpl.
  rewrite Ho, pop_snoc. simpl. by rewrite Hh.
Qed.

(** ** C5: activating and deactivating a hub *)

#[local] Instance keeps_activation_preorder ctx : PreOrder (keeps_activation ctx).
Proof.
  split.
  - intros w. split; [|done]. intros k hk Hk. by exists hk.
  - intros w1 w2 w3 [Hh12 Hl12] [Hh23 Hl23]. split.
    + intros k hk Hk. destruct (Hh12 _ _ Hk) as (hk2 & Hk2 & Ho2).
      destruct (Hh23 _ _ Hk2) as (hk3 & Hk3 & Ho3).
      exists hk3. split; [done|congruence].
    + intros c Hc. by apply Hl23, Hl12.
Qed.

Lemma keeps_activation_frame ctx w sc lg t :
  keeps_activation ctx w (mkWorld (hubs w) sc (_local w) lg t).
Proof. split; [|done]. intros k hk Hk. by exists hk. Qed.

Lemma keeps_activation_hub ctx w self h h' sc lg t :
  hubs w !! self = Some h → _old_hubs h' = _old_hubs h →
  keeps_activation ctx w
    (mkWorld (<[self := h']> (hubs w)) sc (_local w) lg t).
Proof.
  intros Hh Ho. split; [|done]. intros k hk Hk. simpl.
  destruct (decide (self = k)) as [->|Hne].
  - exists h'. rewrite list_lookup_insert_eq by (by eapply lookup_lt_Some).
    split; [done|congruence].
  - exists hk. by rewrite list_lookup_insert_ne.
Qed.

Lemma keeps_activation_stack ctx w self h st :
  hubs w !! self = Some h →
  keeps_activation ctx w
    (mkWorld (<[self := mkHub st (_last_event_id h) (_old_hubs h)]> (hubs w))
       (scopes w) (_local w) (logger w) (trace_ids w)).
Proof. intros Hh. by apply keeps_activation_hub with (h := h). Qed.

Lemma keeps_activation_new_hub ctx w h :
  keeps_activation ctx w
    (mkWorld (hubs w ++ [h]) (scopes w) (_local w) (logger w) (trace_ids w)).
Proof.
  split; [|done]. intros k hk Hk. exists hk. simpl.
  rewrite lookup_app_l; [done|]. by eapply lookup_lt_Some.
Qed.

Lemma keeps_activation_set_last_event_id ctx self i :
  preserves (keeps_activation ctx) (set_last_event_id self i).
Proof.
  intros w. run_monad.
  destruct (hubs w !! self) as [h|] eqn:Hh; simpl; [|reflexivity].
  rewrite ?Hh. simpl. by apply keeps_activation_hub with (h := h).
Qed.

Lemma keeps_activation_current ctx ctx' :
  preserves (keeps_activation ctx) (current ctx').
Proof.
  intros w. destruct (_local w !! ctx') as [c|] eqn:Hl.
  - rewrite (current_bound ctx' w c) by done. reflexivity.
  - run_monad. rewrite Hl. simpl.
    destruct (hubs w !! GLOBAL_HUB) as [g|]; simpl; [|reflexivity].
    destruct (getitem (_stack g) (-1)) as [[cl sc]|]; simpl; [|reflexivity].
    destruct (scopes w !! sc) as [s|]; simpl; [|reflexivity].
    split; simpl.
    + intros k hk Hk. exists hk.
      rewrite lookup_app_l; [done|]. by eapply lookup_lt_Some.
    + intros c Hc. destruct (decide (ctx' = ctx)) as [->|Hne]; [congruence|].
      by rewrite lookup_insert_ne.
Qed.

Lemma keeps_activation_run ctx hub (body : M unit) :
  preserves (keeps_activation ctx) body →
  preserves (keeps_activation ctx) (run ctx hub body).
Proof.
  intros Hbody w. unfold run, mbind, M_bind.
  pose proof (keeps_activation_current ctx ctx w) as Hcur.
  destruct (current ctx w) as [[cur|e] wc] eqn:Hc; simpl in Hcur; cycle 1.
  { assert (Hub__enter__ ctx hub w = (Raise e, wc)) as ->; [|done].
    unfold Hub__enter__, mbind, M_bind. by rewrite Hc. }
  destruct (hubs wc !! hub) as [hk|] eqn:Hk; cycle 1.
  { assert (Hub__enter__ ctx hub w = (Raise InvalidReference, wc)) as ->; [|done].
    unfold Hub__enter__, mbind, M_bind. rewrite Hc. run_monad. by rewrite Hk. }
  rewrite (Hub__enter__run ctx hub w cur wc hk) by done.
  match goal with |- context [with_ body _ ?w1'] => set (w1 := w1') end.
  pose proof (Hbody w1) as [Hbh Hbl]. unfold with_.
  destruct (body w1) as [rb w2]. simpl in Hbh, Hbl.
  destruct (Hbh hub (mkHub (_stack hk) (_last_event_id hk) (_old_hubs hk ++ [cur])))
    as (hk2 & Hk2 & Ho2).
  { apply list_lookup_insert_eq. by eapply lookup_lt_Some. }
  simpl in Ho2.
  rewrite (Hub__exit__run ctx hub w2 hk2 (_old_hubs hk) cur) by done.
  assert (keeps_activation ctx w
            (mkWorld
               (<[hub := mkHub (_stack hk2) (_last_event_id hk2) (_old_hubs hk)]>
                  (hubs w2))
               (scopes w2) (<[ctx := cur]> (_local w2)) (logger w2)
               (trace_ids w2))) as Hfinal.
  { destruct Hcur as [Hch Hcl]. split; simpl.
    - intros k hk0 Hk0. destruct (Hch _ _ Hk0) as (hkc & Hkc & Hoc).
      destruct (decide (k = hub)) as [->|Hne].
      + eexists. rewrite list_lookup_insert_eq by (by eapply lookup_lt_Some).
        split; [done|]. simpl. rewrite Hk in Hkc. by injection Hkc as <-.
      + destruct (Hbh k hkc) as (hk2' & Hk2' & Ho2').
        { subst w1. simpl. by rewrite list_lookup_insert_ne. }
        exists hk2'. rewrite list_lookup_insert_ne by done.
        split; [done|congruence].
    - intros c Hlc. rewrite (current_bound ctx w c Hlc) in Hc.
      injection Hc as <- <-. apply lookup_insert_eq. }
  by destruct rb.
Qed.

(** C5: with [c] the hub current for the calling context, entering [h] makes
    [h] current and pushes [c] on the undo stack of [h]; leaving [h] pops the
    undo stack and makes [c] current again.  Entering [h], running any code,
    entering a hub [h2] (which may be [h] itself), running any code, leaving
    [h2], running any code and leaving [h] ends with [c] current and the undo
    stack of [h] as it was, whether the code inside returned or raised. *)
Theorem activation_restores_current `{ScopeCapture} ctx h c w hh :
  _local w !! ctx = Some c →
  hubs w !! h = Some hh →
  (∃ w1 w2,
     Hub__enter__ ctx h w = (Return h, w1) ∧
     _local w1 !! ctx = Some h ∧
     hubs w1 !! h =
       Some (mkHub (_stack hh) (_last_event_id hh) (_old_hubs hh ++ [c])) ∧
     Hub__exit__ ctx h w1 = (Return tt, w2) ∧
     _local w2 !! ctx = Some c ∧
     hubs w2 !! h = Some hh) ∧
  (∀ h2 before inside after,
     let w' :=
       snd (exec ctx
              (With_hub h (Seq before (Seq (With_hub h2 inside) after))) w) in
     _local w' !! ctx = Some c ∧
     ∃ hh', hubs w' !! h = Some hh' ∧ _old_hubs hh' = _old_hubs hh).
Proof.
  intros Hl Hh. split.
  - pose proof (lookup_lt_Some _ _ _ Hh) as Hlt.
    eexists _, _.
    rewrite (Hub__enter__run ctx h w c w hh) by (by try apply current_bound).
    split; [reflexivity|]. simpl.
    split; [apply lookup_insert_eq|].
    split; [by apply list_lookup_insert_eq|].
    erewrite (Hub__exit__run ctx h _ _ (_old_hubs hh) c); cycle 1.
    { simpl. by apply list_lookup_insert_eq. }
    { done. }
    split; [reflexivity|]. simpl.
    split; [apply lookup_insert_eq|].
    rewrite list_insert_insert_eq, list_lookup_insert_eq by done.
    by destruct hh.
  - intros h2 before inside after w'.
    assert (preserves (keeps_activation ctx)
              (exec ctx
                 (With_hub h (Seq before (Seq (With_hub h2 inside) after)))))
      as Hkeeps.
    { apply preserves_exec;
        first [ apply _ | apply keeps_activation_frame
              | apply keeps_activation_stack
              | apply keeps_activation_set_last_event_id
              | apply keeps_activation_current | apply keeps_activation_run ]. }
    destruct (Hkeeps w) as [Hhubs Hloc].
    split; [by apply Hloc|]. by apply Hhubs.
Qed.

(** ** C6: Hub.current and Hub.main *)

(** C6: [Hub.current] returns the hub bound to the slot of the calling
    context and changes nothing.  When the slot is empty it builds
    [Hub(GLOBAL_HUB)]: a new hub whose stack is one layer, with the client of
    the global hub's top layer and a new scope object that starts with the
    contents of the global hub's top scope; it binds that hub to the slot and
    returns it, so the next read returns the same hub.  [Hub.main] returns
    [GLOBAL_HUB] in every store. *)
Theorem current_and_main ctx w g client sc s :
  hubs w !! GLOBAL_HUB = Some g →
  getitem (_stack g) (-1) = Some (client, sc) →
  scopes w !! sc = Some s →
  (∀ rv, _local w !! ctx = Some rv → current ctx w = (Return rv, w)) ∧
  (_local w !! ctx = None →
   ∃ rv copy w',
     current ctx w = (Return rv, w') ∧
     hubs w !! rv = None ∧
     hubs w' !! rv = Some (mkHub [(client, copy)] None []) ∧
     copy ≠ sc ∧ scopes w !! copy = None ∧
     scopes w' !! copy = Some s ∧ scopes w' !! sc = Some s ∧
     _local w' = <[ctx := rv]> (_local w) ∧
     (∀ k hk, hubs w !! k = Some hk → hubs w' !! k = Some hk) ∧
     current ctx w' = (Return rv, w')) ∧
  (∀ w', main w' = (Return GLOBAL_HUB, w')).
Proof.
  intros Hg Htop Hs. split; [|split].
  - intros rv Hl. by apply current_bound.
  - intros Hl. pose proof (lookup_lt_Some _ _ _ Hs) as Hlt.
    exists (length (hubs w)), (length (scopes w)). eexists.
    rewrite (current_unbound ctx w g client sc s) by done.
    split; [reflexivity|]. simpl.
    split; [by apply lookup_ge_None_2|].
    split; [apply lookup_snoc|].
    split; [lia|].
    split; [by apply lookup_ge_None_2|].
    split; [apply lookup_snoc|].
    split; [by rewrite lookup_app_l|].
    split; [done|].
    split.
    + intros k hk Hk. rewrite lookup_app_l; [done|]. by eapply lookup_lt_Some.
    + apply current_bound. simpl. apply lookup_insert_eq.
  - done.
Qed.

(** ** C7: push_scope clones the top scope *)

(** C7: [push_scope] without a callback returns a guard and appends exactly
    one layer, made of the client of the former top layer and a new scope
    object, the one the guard yields.  The new scope starts with the tags and
    breadcrumbs of the parent; setting a tag or adding a breadcrumb on either
    of the two leaves the other as it was.  With [continue_trace] the
    propagation context of the new scope differs from the parent's; without
    it, it is the parent's. *)
Theorem push_scope_clones_top_scope self continue_trace w h client sc s :
  hubs w !! self = Some h →
  getitem (_stack h) (-1) = Some (client, sc) →
  scopes w !! sc = Some s →
  trace_ids_used w →
  ∃ g w' child s',
    push_scope self continue_trace w = (Return g, w') ∧
    _ScopeManager__enter__ g w' = (Return child, w') ∧
    hubs w' !! self =
      Some (mkHub (_stack h ++ [(client, child)])
              (_last_event_id h) (_old_hubs h)) ∧
    child ≠ sc ∧
    scopes w' !! sc = Some s ∧
    scopes w' !! child = Some s' ∧
    _tags s' = _tags s ∧ _breadcrumbs s' = _breadcrumbs s ∧
    (continue_trace = true → _propagation_context s' ≠ _propagation_context s) ∧
    (continue_trace = false → _propagation_context s' = _propagation_context s) ∧
    (∀ key value,
       let w'' := snd (set_tag child key value w') in
       scopes w'' !! sc = Some s ∧
       _tags <$> scopes w'' !! child = Some (<[key := value]> (_tags s'))) ∧
    (∀ key value,
       let w'' := snd (set_tag sc key value w') in
       scopes w'' !! child = Some s' ∧
       _tags <$> scopes w'' !! sc = Some (<[key := value]> (_tags s))) ∧
    (∀ crumb,
       let w'' := snd (Scope_add_breadcrumb child crumb w') in
       scopes w'' !! sc = Some s ∧
       _breadcrumbs <$> scopes w'' !! child = Some (_breadcrumbs s' ++ [crumb])) ∧
    (∀ crumb,
       let w'' := snd (Scope_add_breadcrumb sc crumb w') in
       scopes w'' !! child = Some s' ∧
       _breadcrumbs <$> scopes w'' !! sc = Some (_breadcrumbs s ++ [crumb])).
Proof.
  intros Hh Htop Hs Hused.
  pose proof (lookup_lt_Some _ _ _ Hs) as Hlt.
  pose proof (lookup_lt_Some _ _ _ Hh) as Hlth.
  pose proof (Hused _ _ Hs) as Hfresh.
  assert (length (scopes w) ≠ sc) as Hne by lia.
  eexists _, _, (length (scopes w)), _.
  rewrite (push_scope_run w self continue_trace h client sc s) by done.
  split; [reflexivity|]. split; [reflexivity|]. simpl.
  split; [by apply list_lookup_insert_eq|].
  split; [done|].
  split; [by rewrite lookup_app_l|].
  split; [apply lookup_snoc|].
  split; [by destruct continue_trace|].
  split; [by destruct continue_trace|].
  split; [intros ->; simpl; lia|].
  split; [by intros ->|].
  repeat split; run_monad;
    rewrite ?lookup_snoc, ?(lookup_app_l _ _ sc) by done; simpl;
    rewrite ?Hs; simpl;
    rewrite ?insert_snoc, ?lookup_snoc,
      ?(list_lookup_insert_ne _ sc (length (scopes w))) by done;
    rewrite ?lookup_snoc, ?(lookup_app_l _ _ sc) by done;
    rewrite ?list_lookup_insert_eq by (rewrite length_app; lia);
    try done.
Qed.

(** ** C10: configure_scope *)

Lemma top_run self w h layer :
  hubs w !! self = Some h →
  getitem (_stack h) (-1) = Some layer →
  top self w = (Return layer, w).
Proof. intros Hh Htop. run_monad. rewrite Hh. simpl. by rewrite Htop. Qed.

Lemma top_raises self w h :
  hubs w !! self = Some h →
  getitem (_stack h) (-1) = None →
  top self w = (Raise IndexError, w).
Proof. intros Hh Htop. run_monad. rewrite Hh. simpl. by rewrite Htop. Qed.

Lemma generate_propagation_context_run w sc s :
  scopes w !! sc = Some s →
  generate_propagation_context sc w =
    (Return tt,
     mkWorld (hubs w)
       (<[sc := mkScope (_tags s) (_breadcrumbs s) (trace_ids w)]> (scopes w))
       (_local w) (logger w) (S (trace_ids w))).
Proof. intros Hs. run_monad. by rewrite Hs. Qed.

(** C10: [configure_scope] with a callback calls it, with the top scope of
    the hub, when the top layer has a client, and does not call it when the
    top layer has none.  Without a callback, the context manager it returns
    yields the top scope of the hub when there is a client; when there is
    none it yields a new scope object with no tags and no breadcrumbs, which
    is in no layer of any hub, so that setting a tag or adding a breadcrumb
    through it changes no hub and no other scope. *)
Theorem configure_scope_needs_client
    self (continue_trace : bool) w h client sc s :
  hubs w !! self = Some h →
  getitem (_stack h) (-1) = Some (client, sc) →
  scopes w !! sc = Some s →
  scopes_allocated w →
  let w1 :=
    snd ((if continue_trace return M unit
          then generate_propagation_context sc else mret tt) w) in
  (∀ callback,
     configure_scope_callback self callback continue_trace w =
       match client with
       | Some _ => callback sc w1
       | None => (Return tt, w1)
       end) ∧
  configure_scope self continue_trace w = (Return (mkInner client sc), w1) ∧
  (client ≠ None → inner__enter__ (mkInner client sc) w1 = (Return sc, w1)) ∧
  (client = None →
   ∃ fresh w2,
     inner__enter__ (mkInner client sc) w1 = (Return fresh, w2) ∧
     scopes w1 !! fresh = None ∧
     scopes w2 !! fresh = Some (mkScope ∅ [] (trace_ids w1)) ∧
     hubs w2 = hubs w ∧
     (∀ k hk layer, hubs w2 !! k = Some hk → layer ∈ _stack hk →
        snd layer ≠ fresh ∧ scopes w2 !! snd layer = scopes w1 !! snd layer) ∧
     (∀ key value,
        let w3 := snd (set_tag fresh key value w2) in
        hubs w3 = hubs w2 ∧
        (∀ r, r ≠ fresh → scopes w3 !! r = scopes w2 !! r) ∧
        _tags <$> scopes w3 !! fresh = Some (<[key := value]> ∅)) ∧
     (∀ crumb,
        let w3 := snd (Scope_add_breadcrumb fresh crumb w2) in
        hubs w3 = hubs w2 ∧
        (∀ r, r ≠ fresh → scopes w3 !! r = scopes w2 !! r) ∧
        _breadcrumbs <$> scopes w3 !! fresh = Some [crumb])).
Proof.
  intros Hh Htop Hs Hal w1.
  assert (hubs w1 = hubs w ∧ length (scopes w1) = length (scopes w)) as [Hhubs Hlen].
  { subst w1. destruct continue_trace; [|done].
    rewrite (generate_propagation_context_run w sc s) by done. simpl.
    by rewrite length_insert. }
  assert ((if continue_trace return M unit
           then generate_propagation_context sc else mret tt) w
          = (Return tt, w1)) as Hgen.
  { subst w1. destruct continue_trace; [|done].
    by rewrite (generate_propagation_context_run w sc s). }
  split; [|split; [|split]].
  - intros callback. unfold configure_scope_callback, mbind, M_bind.
    rewrite (top_run self w h (client, sc)) by done.
    rewrite Hgen. by destruct client.
  - unfold configure_scope, mbind, M_bind.
    rewrite (top_run self w h (client, sc)) by done.
    by rewrite Hgen.
  - by destruct client.
  - intros ->. exists (length (scopes w1)). eexists.
    split; [reflexivity|]. simpl.
    split; [by apply lookup_ge_None_2|].
    split; [apply lookup_snoc|].
    split; [done|].
    split; [|split].
    + intros k hk layer Hk Hl. rewrite Hhubs in Hk.
      pose proof (Hal _ _ _ Hk Hl) as Hlt.
      split; [lia|]. rewrite lookup_app_l; [done|lia].
    + intros key value. run_monad. rewrite lookup_snoc. simpl.
      split; [done|]. rewrite insert_snoc. split.
      * intros r Hr. destruct (decide (r < length (scopes w1))%nat) as [Hr1|Hr1].
        -- by rewrite !lookup_app_l.
        -- rewrite !lookup_app_r by lia.
           destruct (r - length (scopes w1))%nat as [|m] eqn:E; [lia|done].
      * by rewrite lookup_snoc.
    + intros crumb. run_monad. rewrite lookup_snoc. simpl.
      split; [done|]. rewrite insert_snoc. split.
      * intros r Hr. destruct (decide (r < length (scopes w1))%nat) as [Hr1|Hr1].
        -- by rewrite !lookup_app_l.
        -- rewrite !lookup_app_r by lia.
           destruct (r - length (scopes w1))%nat as [|m] eqn:E; [lia|done].
      * by rewrite lookup_snoc.
Qed.

(** ** C2: last_event_id *)

#[local] Instance keeps_last_event_id_preorder : PreOrder keeps_last_event_id.
Proof.
  split.
  - intros w k hk Hk. by exists hk.
  - intros w1 w2 w3 H12 H23 k hk Hk.
    destruct (H12 _ _ Hk) as (hk2 & Hk2 & Ho2).
    destruct (H23 _ _ Hk2) as (hk3 & Hk3 & Ho3).
    exists hk3. split; [done|congruence].
Qed.

Lemma keeps_last_event_id_frame w sc lg t :
  keeps_last_event_id w (mkWorld (hubs w) sc (_local w) lg t).
Proof. intros k hk Hk. by exists hk. Qed.

Lemma keeps_last_event_id_stack w self h st :
  hubs w !! self = Some h →
  keeps_last_event_id w
    (mkWorld (<[self := mkHub st (_last_event_id h) (_old_hubs h)]> (hubs w))
       (scopes w) (_local w) (logger w) (trace_ids w)).
Proof.
  intros Hh k hk Hk. simpl. destruct (decide (self = k)) as [->|Hne].
  - eexists. rewrite list_lookup_insert_eq by (by eapply lookup_lt_Some).
    split; [done|]. simpl. congruence.
  - exists hk. by rewrite list_lookup_insert_ne.
Qed.

Lemma keeps_last_event_id_new_hub w h :
  keeps_last_event_id w
    (mkWorld (hubs w ++ [h]) (scopes w) (_local w) (logger w) (trace_ids w)).
Proof.
  intros k hk Hk. exists hk. simpl.
  rewrite lookup_app_l; [done|]. by eapply lookup_lt_Some.
Qed.

Lemma set_last_event_id_run self i w h :
  hubs w !! self = Some h →
  set_last_event_id self i w =
    (Return tt,
     mkWorld (<[self := mkHub (_stack h) i (_old_hubs h)]> (hubs w))
       (scopes w) (_local w) (logger w) (trace_ids w)).
Proof. intros Hh. run_monad. by rewrite Hh. Qed.

(** C2: on a hub whose top layer has a client, [capture_event] stores the
    identifier it returns in [_last_event_id] when that identifier is not
    [None] and the event's type is not ["transaction"], and leaves
    [_last_event_id] as it was otherwise; [capture_message] and
    [capture_exception] store the identifier they return when it is not
    [None] and leave [_last_event_id] as it was otherwise.  With no client on
    the top layer the three of them return [None] and change nothing.
    Pushing a scope, releasing a guard, popping a scope, binding a client and
    configuring the scope leave the [_last_event_id] of every hub as it
    was. *)
Theorem capture_sets_last_event_id `{ScopeCapture} self w h :
  hubs w !! self = Some h →
  (∀ event hint scope scope_kwargs, ∃ r w',
     capture_event self event hint scope scope_kwargs w = (r, w') ∧
     _last_event_id <$> hubs w' !! self =
       Some (match r with
             | Return (Some id) =>
                 if bool_decide (event !! "type"%string = Some "transaction"%string)
                 then _last_event_id h else Some id
             | _ => _last_event_id h
             end)) ∧
  (∀ message level scope scope_kwargs, ∃ r w',
     capture_message self message level scope scope_kwargs w = (r, w') ∧
     _last_event_id <$> hubs w' !! self =
       Some (match r with
             | Return (Some id) => Some id
             | _ => _last_event_id h
             end)) ∧
  (∀ error scope scope_kwargs, ∃ r w',
     capture_exception self error scope scope_kwargs w = (r, w') ∧
     _last_event_id <$> hubs w' !! self =
       Some (match r with
             | Return (Some id) => Some id
             | _ => _last_event_id h
             end)) ∧
  (∀ client top_scope event hint scope scope_kwargs,
     getitem (_stack h) (-1) = Some (Some client, top_scope) →
     fst (capture_event self event hint scope scope_kwargs w) =
       Return (Scope_capture_event top_scope event hint client scope scope_kwargs)) ∧
  (∀ top_scope,
     getitem (_stack h) (-1) = Some (None, top_scope) →
     (∀ event hint scope scope_kwargs,
        capture_event self event hint scope scope_kwargs w = (Return None, w)) ∧
     (∀ message level scope scope_kwargs,
        capture_message self message level scope scope_kwargs w = (Return None, w)) ∧
     (∀ error scope scope_kwargs,
        capture_exception self error scope scope_kwargs w = (Return None, w))) ∧
  (∀ hub continue_trace new guard,
     keeps_last_event_id w (snd (push_scope hub continue_trace w)) ∧
     keeps_last_event_id w (snd (_ScopeManager__exit__ guard w)) ∧
     keeps_last_event_id w (snd (pop_scope_unsafe hub w)) ∧
     keeps_last_event_id w (snd (bind_client hub new w)) ∧
     keeps_last_event_id w (snd (configure_scope hub continue_trace w))).
Proof.
  intros Hh. pose proof (lookup_lt_Some _ _ _ Hh) as Hlt.
  split; [|split; [|split; [|split; [|split]]]].
  - intros event hint scope scope_kwargs.
    unfold capture_event, mbind, M_bind.
    destruct (getitem (_stack h) (-1)) as [[[cl|] sc]|] eqn:Htop.
    + rewrite (top_run self w h (Some cl, sc)) by done.
      destruct (Scope_capture_event sc event hint cl scope scope_kwargs) as [id|].
      * destruct (bool_decide (event !! "type"%string = Some "transaction"%string));
          simpl.
        -- eexists _, _. split; [reflexivity|]. by rewrite Hh.
        -- rewrite (set_last_event_id_run self (Some id) w h) by done.
           eexists _, _. split; [reflexivity|]. simpl.
           by rewrite list_lookup_insert_eq.
      * simpl. eexists _, _. split; [reflexivity|]. by rewrite Hh.
    + rewrite (top_run self w h (None, sc)) by done.
      eexists _, _. split; [reflexivity|]. by rewrite Hh.
    + rewrite (top_raises self w h) by done.
      eexists _, _. split; [reflexivity|]. by rewrite Hh.
  - intros message level scope scope_kwargs.
    unfold capture_message, mbind, M_bind.
    destruct (getitem (_stack h) (-1)) as [[[cl|] sc]|] eqn:Htop.
    + rewrite (top_run self w h (Some cl, sc)) by done.
      destruct (Scope_capture_message sc message level cl scope scope_kwargs)
        as [id|]; simpl.
      * rewrite (set_last_event_id_run self (Some id) w h) by done.
        eexists _, _. split; [reflexivity|]. simpl.
        by rewrite list_lookup_insert_eq.
      * eexists _, _. split; [reflexivity|]. by rewrite Hh.
    + rewrite (top_run self w h (None, sc)) by done.
      eexists _, _. split; [reflexivity|]. by rewrite Hh.
    + rewrite (top_raises self w h) by done.
      eexists _, _. split; [reflexivity|]. by rewrite Hh.
  - intros error scope scope_kwargs.
    unfold capture_exception, mbind, M_bind.
    destruct (getitem (_stack h) (-1)) as [[[cl|] sc]|] eqn:Htop.
    + rewrite (top_run self w h (Some cl, sc)) by done.
      destruct (Scope_capture_exception sc error cl scope scope_kwargs)
        as [id|]; simpl.
      * rewrite (set_last_event_id_run self (Some id) w h) by done.
        eexists _, _. split; [reflexivity|]. simpl.
        by rewrite list_lookup_insert_eq.
      * eexists _, _. split; [reflexivity|]. by rewrite Hh.
    + rewrite (top_run self w h (None, sc)) by done.
      eexists _, _. split; [reflexivity|]. by rewrite Hh.
    + rewrite (top_raises self w h) by done.
      eexists _, _. split; [reflexivity|]. by rewrite Hh.
  - intros cl sc event hint scope scope_kwargs Htop.
    unfold capture_event, mbind, M_bind.
    rewrite (top_run self w h (Some cl, sc)) by done.
    destruct (Scope_capture_event sc event hint cl scope scope_kwargs) as [id|];
      [|done].
    destruct (bool_decide (event !! "type"%string = Some "transaction"%string));
      simpl; [done|].
    by rewrite (set_last_event_id_run self (Some id) w h).
  - intros sc Htop. repeat split; intros;
      unfold capture_event, capture_message, capture_exception, mbind, M_bind;
      by rewrite (top_run self w h (None, sc)).
  - intros hub continue_trace new guard. repeat split.
    + apply preserves_push_scope;
        first [ apply _ | apply keeps_last_event_id_frame
              | apply keeps_last_event_id_stack ].
    + apply preserves__ScopeManager__exit__;
        first [ apply _ | apply keeps_last_event_id_frame
              | apply keeps_last_event_id_stack ].
    + apply preserves_pop_scope_unsafe;
        first [ apply _ | apply keeps_last_event_id_frame
              | apply keeps_last_event_id_stack ].
    + apply preserves_bind_client;
        first [ apply _ | apply keeps_last_event_id_frame
              | apply keeps_last_event_id_stack ].
    + apply preserves_configure_scope;
        first [ apply _ | apply keeps_last_event_id_frame
              | apply keeps_last_event_id_stack ].
Qed.

(** ** C8: the stack is never empty *)

(** C8 fails on [pop_scope_unsafe]: on the global hub as the module creates
    it, with its one layer, the call pops that layer, and only then finds
    the stack empty and raises [AssertionError]; the stack stays empty. *)
Lemma pop_scope_unsafe_empties_stack :
  depth initial_world GLOBAL_HUB = Some 1 ∧
  fst (pop_scope_unsafe GLOBAL_HUB initial_world) = Raise AssertionError ∧
  depth (snd (pop_scope_unsafe GLOBAL_HUB initial_world)) GLOBAL_HUB = Some 0.
Proof. repeat split; vm_compute; reflexivity. Qed.

(** On any hub with a single layer. *)
Lemma pop_scope_unsafe_last_layer self w h layer :
  hubs w !! self = Some h →
  _stack h = [layer] →
  pop_scope_unsafe self w =
    (Raise AssertionError,
     mkWorld (<[self := mkHub [] (_last_event_id h) (_old_hubs h)]> (hubs w))
       (scopes w) (_local w) (logger w) (trace_ids w)).
Proof.
  intros Hh Hst. run_monad. rewrite Hh. simpl. rewrite Hst. simpl.
  by rewrite Hh.
Qed.

(** With two layers or more it returns the top layer and leaves the rest. *)
Lemma pop_scope_unsafe_run self w h below layer :
  hubs w !! self = Some h →
  _stack h = below ++ [layer] →
  below ≠ [] →
  pop_scope_unsafe self w =
    (Return layer,
     mkWorld (<[self := mkHub below (_last_event_id h) (_old_hubs h)]> (hubs w))
       (scopes w) (_local w) (logger w) (trace_ids w)).
Proof.
  intros Hh Hst Hne. unfold pop_scope_unsafe, mbind, M_bind.
  run_monad. rewrite Hh. simpl. rewrite Hst, pop_snoc. simpl. rewrite Hh. simpl.
  by rewrite bool_decide_eq_false_2.
Qed.

(** The other operations keep a stack that has a layer in that state: a push
    adds one, binding a client keeps the depth, and the release of a guard
    that [push_scope] returned leaves at least the layers below its own. *)
Lemma other_operations_keep_a_layer self continue_trace w0 g w0' w h new :
  push_scope self continue_trace w0 = (Return g, w0') →
  hubs w !! self = Some h →
  1 ≤ len (_stack h) →
  (∃ d, depth w0' self = Some d ∧ 2 ≤ d) ∧
  (∃ d, depth (snd (_ScopeManager__exit__ g w)) self = Some d ∧ 1 ≤ d) ∧
  depth (snd (bind_client self new w)) self = depth w self.
Proof.
  intros Hpush Hh Hlen.
  destruct (push_scope_inv _ _ _ _ _ Hpush) as (h0 & cl & sc & s & Hh0 & Htop & Hs).
  rewrite (push_scope_run w0 self continue_trace h0 cl sc s) in Hpush by done.
  injection Hpush as <- <-.
  pose proof (getitem_Some_len _ _ _ Htop) as Hlen0.
  pose proof (lookup_lt_Some _ _ _ Hh) as Hlt.
  pose proof (lookup_lt_Some _ _ _ Hh0) as Hlt0.
  split; [|split].
  - unfold depth. simpl. rewrite list_lookup_insert_eq by done. simpl.
    eexists. split; [done|]. rewrite len_app. unfold len in *. simpl. lia.
  - set (g := mkScopeManager self (len (_stack h0) + 1) (cl, length (scopes w0))).
    destruct (Z.lt_ge_cases (len (_stack h)) (_original_len g)) as [Hsoon|Hge].
    + rewrite (exit_too_soon g w h) by done. unfold depth. simpl.
      rewrite Hh. simpl. by eexists.
    + destruct (exit_layer_exists g h) as [layer Hl]; [subst g; simpl in *; lia|].
      rewrite (exit_pops g w h layer) by done. unfold depth. simpl.
      rewrite list_lookup_insert_eq by done. simpl.
      eexists. split; [done|].
      subst g. simpl in *. rewrite len_del_from by lia. lia.
  - destruct (exists_last (l := _stack h)) as [below [layer Hst]].
    { intros Hnil. rewrite Hnil in Hlen. unfold len in Hlen. simpl in Hlen. lia. }
    unfold bind_client, mbind, M_bind.
    rewrite (top_run self w h layer)
      by (try done; rewrite Hst; apply getitem_last).
    run_monad. rewrite Hh. simpl. rewrite Hst, pop_snoc. simpl. rewrite Hh. simpl.
    unfold depth. simpl. rewrite list_lookup_insert_eq by done. simpl.
    rewrite Hh. simpl. by rewrite Hst, !len_app.
Qed.

(** ** C9: the cron monitor *)

(** C9, as stated, fails for the exceptions that are not instances of
    [Exception]: when the body raises [KeyboardInterrupt], the exception
    passes through and the only check-in captured is the one made on
    entry. *)
Lemma monitor_skips_KeyboardInterrupt :
  Crons.monitor (Some "job"%string)
    (λ s, (Crons.Raises Crons.KeyboardInterrupt,
           Crons.mkState (Crons.clock s + 5) (Crons.captured s) (Crons.uuid4 s)))
    (Crons.mkState 100 [] (λ _, "id"%string)) =
  (Crons.Raises Crons.KeyboardInterrupt,
   Crons.mkState 105
     [Crons.mkCheckIn (Some "job"%string) None Crons.IN_PROGRESS None]
     (λ _, "id"%string)).
Proof. reflexivity. Qed.

(** C9, amended: the monitor captures an in-progress check-in and then runs
    the body.  When the body returns, a check-in with status OK and the time
    elapsed since entry is captured under the identifier of the first one,
    and the monitor returns.  When the body raises an instance of
    [Exception], a check-in with status ERROR and the time elapsed is
    captured under that identifier and the same exception is raised
    again.  Any other exception propagates as it is, with no further
    check-in. *)
Theorem monitor_check_ins monitor_slug body s :
  let id := Crons.uuid4 s (length (Crons.captured s)) in
  let entered :=
    Crons.mkState (Crons.clock s)
      (Crons.captured s ++
       [Crons.mkCheckIn monitor_slug None Crons.IN_PROGRESS None])
      (Crons.uuid4 s) in
  let closing status s' :=
    Crons.mkState (Crons.clock s')
      (Crons.captured s' ++
       [Crons.mkCheckIn monitor_slug (Some id) status
          (Some (Crons.clock s' - Crons.clock s))])
      (Crons.uuid4 s') in
  Crons.monitor monitor_slug body s =
    match body entered with
    | (Crons.Returns _, s') => (Crons.Returns tt, closing Crons.OK s')
    | (Crons.Raises e, s') =>
        if Crons.isinstance_Exception e
        then (Crons.Raises e, closing Crons.ERROR s')
        else (Crons.Raises e, s')
    end.
Proof.
  intros id entered closing.
  unfold Crons.monitor, Crons.try_except_Exception, Crons.now,
    Crons.capture_checkin, Crons.reraise, mbind, Crons.C_bind, mret,
    Crons.C_ret. simpl.
  fold entered. destruct (body entered) as [[[]|e] s']; simpl; [done|].
  by destruct (Crons.isinstance_Exception e).
Qed.

(** ** The theorems at concrete stores *)

Lemma release_below_recorded_depth_witness :
  hubs world_depth_3 !! GLOBAL_HUB =
    Some (mkHub [(None, 0%nat); (None, 1%nat); (None, 2%nat)] None []) ∧
  push_scope GLOBAL_HUB true world_depth_3 =
    (Return (mkScopeManager GLOBAL_HUB 4 (None, 3%nat)), snd guard_at_3) ∧
  stacks_have_a_layer world_popped_twice ∧
  _original_len (mkScopeManager GLOBAL_HUB 4 (None, 3%nat)) = 3 + 1 ∧
  _ScopeManager__exit__ (mkScopeManager GLOBAL_HUB 4 (None, 3%nat))
      world_popped_twice =
    (Return tt, logged world_popped_twice ERROR (Scope_popped_too_soon (3 + 1 - 2))).
Proof.
  assert (hubs world_depth_3 !! GLOBAL_HUB =
            Some (mkHub [(None, 0%nat); (None, 1%nat); (None, 2%nat)] None []))
    as Hh by reflexivity.
  assert (push_scope GLOBAL_HUB true world_depth_3 =
            (Return (mkScopeManager GLOBAL_HUB 4 (None, 3%nat)), snd guard_at_3))
    as Hpush by reflexivity.
  assert (stacks_have_a_layer world_popped_twice) as Hlayers.
  { intros k h Hk. destruct k; [|done].
    vm_compute in Hk. injection Hk as <-. discriminate. }
  destruct (release_below_recorded_depth GLOBAL_HUB true world_depth_3 _ _ _
              Hh Hpush) as (_ & Hlen & Hsoon & _).
  split; [exact Hh|]. split; [exact Hpush|]. split; [exact Hlayers|].
  split; [exact Hlen|].
  apply (Hsoon world_popped_twice
           (mkHub [(None, 0%nat); (None, 1%nat)] None [])).
  - exact Hlayers.
  - reflexivity.
  - reflexivity.
Defined.

Lemma capture_sets_last_event_id_witness :
  hubs world_with_client !! GLOBAL_HUB =
    Some (mkHub [(Some 7%nat, 0%nat)] None []) ∧
  ∃ r w',
    @capture_message capture_all GLOBAL_HUB "hi" None None ∅ world_with_client
      = (r, w') ∧
    _last_event_id <$> hubs w' !! GLOBAL_HUB =
      Some (match r with
            | Return (Some id) => Some id
            | _ => None
            end).
Proof.
  assert (hubs world_with_client !! GLOBAL_HUB =
            Some (mkHub [(Some 7%nat, 0%nat)] None [])) as Hh by reflexivity.
  split; [exact Hh|].
  exact (proj1 (proj2
           (@capture_sets_last_event_id capture_all GLOBAL_HUB world_with_client
              _ Hh)) "hi"%string None None ∅).
Defined.

Lemma activation_restores_current_witness :
  _local initial_world !! 0%nat = Some GLOBAL_HUB ∧
  hubs initial_world !! GLOBAL_HUB = Some (mkHub [(None, 0%nat)] None []) ∧
  let w' :=
    snd (@exec capture_all 0%nat
           (With_hub GLOBAL_HUB
              (Seq (Do (Push_scope GLOBAL_HUB true))
                 (Seq (With_hub GLOBAL_HUB (Do (Pop_scope_unsafe GLOBAL_HUB)))
                    (Do (Bind_client GLOBAL_HUB (Some 7%nat))))))
           initial_world) in
  _local w' !! 0%nat = Some GLOBAL_HUB ∧
  ∃ hh', hubs w' !! GLOBAL_HUB = Some hh' ∧ _old_hubs hh' = [].
Proof.
  assert (_local initial_world !! 0%nat = Some GLOBAL_HUB) as Hl by reflexivity.
  assert (hubs initial_world !! GLOBAL_HUB = Some (mkHub [(None, 0%nat)] None []))
    as Hh by reflexivity.
  split; [exact Hl|]. split; [exact Hh|].
  exact (proj2
           (@activation_restores_current capture_all 0%nat GLOBAL_HUB GLOBAL_HUB
              initial_world _ Hl Hh)
           GLOBAL_HUB (Do (Push_scope GLOBAL_HUB true))
           (Do (Pop_scope_unsafe GLOBAL_HUB))
           (Do (Bind_client GLOBAL_HUB (Some 7%nat)))).
Defined.

Lemma current_and_main_witness :
  hubs initial_world !! GLOBAL_HUB = Some (mkHub [(None, 0%nat)] None []) ∧
  scopes initial_world !! 0%nat = Some (mkScope ∅ [] 0%nat) ∧
  _local initial_world !! 1%nat = None ∧
  ∃ rv copy w',
    current 1%nat initial_world = (Return rv, w') ∧
    hubs w' !! rv = Some (mkHub [(None, copy)] None []) ∧
    copy ≠ 0%nat ∧
    scopes w' !! copy = Some (mkScope ∅ [] 0%nat) ∧
    current 1%nat w' = (Return rv, w').
Proof.
  assert (hubs initial_world !! GLOBAL_HUB = Some (mkHub [(None, 0%nat)] None []))
    as Hg by reflexivity.
  assert (scopes initial_world !! 0%nat = Some (mkScope ∅ [] 0%nat))
    as Hs by reflexivity.
  assert (_local initial_world !! 1%nat = None) as Hl by reflexivity.
  split; [exact Hg|]. split; [exact Hs|]. split; [exact Hl|].
  destruct (current_and_main 1%nat initial_world _ None 0%nat _ Hg eq_refl Hs)
    as (_ & Hnew & _).
  destruct (Hnew Hl) as (rv & copy & w' & Hrun & _ & Hhub & Hne & _ & Hcopy & _ & _ & _ & Hagain).
  exists rv, copy, w'. repeat split; assumption.
Defined.

Lemma push_scope_clones_top_scope_witness :
  hubs initial_world !! GLOBAL_HUB = Some (mkHub [(None, 0%nat)] None []) ∧
  scopes initial_world !! 0%nat = Some (mkScope ∅ [] 0%nat) ∧
  trace_ids_used initial_world ∧
  ∃ g w' child s',
    push_scope GLOBAL_HUB true initial_world = (Return g, w') ∧
    hubs w' !! GLOBAL_HUB =
      Some (mkHub ([(None, 0%nat)] ++ [(None, child)]) None []) ∧
    child ≠ 0%nat ∧
    scopes w' !! child = Some s' ∧
    _propagation_context s' ≠ 0%nat ∧
    scopes (snd (set_tag child "k" "v" w')) !! 0%nat = Some (mkScope ∅ [] 0%nat).
Proof.
  assert (hubs initial_world !! GLOBAL_HUB = Some (mkHub [(None, 0%nat)] None []))
    as Hg by reflexivity.
  assert (scopes initial_world !! 0%nat = Some (mkScope ∅ [] 0%nat))
    as Hs by reflexivity.
  assert (trace_ids_used initial_world) as Hused.
  { intros r s Hr. destruct r; [|done].
    vm_compute in Hr. injection Hr as <-. vm_compute. lia. }
  split; [exact Hg|]. split; [exact Hs|]. split; [exact Hused|].
  destruct (push_scope_clones_top_scope GLOBAL_HUB true initial_world
              _ None 0%nat _ Hg eq_refl Hs Hused)
    as (g & w' & child & s' & Hrun & _ & Hhub & Hne & _ & Hchild & _ & _ &
        Hpc & _ & Htag & _).
  exists g, w', child, s'.
  split; [exact Hrun|]. split; [exact Hhub|]. split; [exact Hne|].
  split; [exact Hchild|]. split; [exact (Hpc eq_refl)|].
  exact (proj1 (Htag "k"%string "v"%string)).
Defined.

Lemma configure_scope_needs_client_witness :
  hubs initial_world !! GLOBAL_HUB = Some (mkHub [(None, 0%nat)] None []) ∧
  scopes initial_world !! 0%nat = Some (mkScope ∅ [] 0%nat) ∧
  scopes_allocated initial_world ∧
  (∀ callback,
     configure_scope_callback GLOBAL_HUB callback false initial_world =
       (Return tt, initial_world)) ∧
  ∃ fresh w2,
    inner__enter__ (mkInner None 0%nat) initial_world = (Return fresh, w2) ∧
    hubs w2 = hubs initial_world ∧
    hubs (snd (set_tag fresh "k" "v" w2)) = hubs w2.
Proof.
  assert (hubs initial_world !! GLOBAL_HUB = Some (mkHub [(None, 0%nat)] None []))
    as Hg by reflexivity.
  assert (scopes initial_world !! 0%nat = Some (mkScope ∅ [] 0%nat))
    as Hs by reflexivity.
  assert (scopes_allocated initial_world) as Hal.
  { intros k h layer Hk Hl. destruct k; [|done].
    vm_compute in Hk. injection Hk as <-.
    apply list_elem_of_singleton in Hl. subst. vm_compute. lia. }
  split; [exact Hg|]. split; [exact Hs|]. split; [exact Hal|].
  destruct (configure_scope_needs_client GLOBAL_HUB false initial_world
              _ None 0%nat _ Hg eq_refl Hs Hal)
    as (Hcb & _ & _ & Hfresh).
  split; [exact Hcb|].
  destruct (Hfresh eq_refl) as (fresh & w2 & Hrun & _ & _ & Hhubs & _ & Htag & _).
  exists fresh, w2.
  split; [exact Hrun|]. split; [exact Hhubs|].
  exact (proj1 (Htag "k"%string "v"%string)).
Defined.

(** * More properties of the code *)

(** ** Steps of the monad *)

Lemma bind_return {A B} (m : M A) (f : A → M B) w a w1 :
  m w = (Return a, w1) → (m ≫= f) w = f a w1.
Proof. intros Hm. unfold mbind, M_bind. by rewrite Hm. Qed.

Lemma bind_assoc {A B C} (m : M A) (f : A → M B) (g : B → M C) w :
  ((m ≫= f) ≫= g) w = (m ≫= λ a, f a ≫= g) w.
Proof. unfold mbind, M_bind. by destruct (m w) as [[a|e] w1]. Qed.

Lemma client_run self w h cl sc :
  hubs w !! self = Some h →
  getitem (_stack h) (-1) = Some (cl, sc) →
  client self w = (Return cl, w).
Proof.
  intros Hh Htop. unfold client, mbind, M_bind.
  by rewrite (top_run self w h (cl, sc)).
Qed.

(** ** bind_client, client and scope *)

Lemma set_top_run self layer w h below old_layer :
  hubs w !! self = Some h →
  _stack h = below ++ [old_layer] →
  set_top self layer w =
    (Return tt,
     mkWorld
       (<[self := mkHub (below ++ [layer]) (_last_event_id h) (_old_hubs h)]>
          (hubs w))
       (scopes w) (_local w) (logger w) (trace_ids w)).
Proof.
  intros Hh Hst. run_monad. rewrite Hh. simpl. rewrite Hst, pop_snoc. simpl.
  by rewrite Hh.
Qed.

Lemma getitem_nil {A} (i : Z) : getitem (@nil A) i = None.
Proof. unfold getitem. case_match; [done|]. by rewrite lookup_nil. Qed.

(** X1: [bind_client] replaces the client of the top layer and nothing else:
    the scope of that layer, the layers below, the depth, the last event id,
    the other hubs, the scopes and the log are as before; afterwards
    [client] reads the new client and [scope] the same scope.  On a hub with
    an empty stack it raises [IndexError] and changes nothing. *)
Theorem bind_client_replaces_top_client self new w h :
  hubs w !! self = Some h →
  (∀ below cl sc,
     _stack h = below ++ [(cl, sc)] →
     ∃ w',
       bind_client self new w = (Return tt, w') ∧
       hubs w' =
         <[self := mkHub (below ++ [(new, sc)]) (_last_event_id h) (_old_hubs h)]>
           (hubs w) ∧
       scopes w' = scopes w ∧ _local w' = _local w ∧
       logger w' = logger w ∧ trace_ids w' = trace_ids w ∧
       depth w' self = depth w self ∧
       client self w' = (Return new, w') ∧
       scope self w' = (Return sc, w')) ∧
  (_stack h = [] → bind_client self new w = (Raise IndexError, w)).
Proof.
  intros Hh. pose proof (lookup_lt_Some _ _ _ Hh) as Hlt. split.
  - intros below cl sc Hst. eexists.
    unfold bind_client, mbind, M_bind.
    rewrite (top_run self w h (cl, sc)) by (try done; rewrite Hst; apply getitem_last).
    rewrite (set_top_run self _ w h below (cl, sc)) by done.
    split; [reflexivity|]. simpl. repeat split; try done.
    + unfold depth. simpl. rewrite list_lookup_insert_eq, Hh by done. simpl.
      by rewrite Hst, !len_app.
    + unfold client, mbind, M_bind. erewrite top_run; cycle 1.
      * simpl. by apply list_lookup_insert_eq.
      * simpl. apply getitem_last.
      * done.
    + unfold scope, mbind, M_bind. erewrite top_run; cycle 1.
      * simpl. by apply list_lookup_insert_eq.
      * simpl. apply getitem_last.
      * done.
  - intros Hst. unfold bind_client, mbind, M_bind.
    by rewrite (top_raises self w h) by (try done; rewrite Hst; apply getitem_nil).
Qed.

(** ** pop_scope_unsafe *)

(** X2: on a stack of two layers or more [pop_scope_unsafe] returns the top
    layer and removes exactly that layer; on an empty stack it raises
    [IndexError] and changes nothing.  Right after a [push_scope] it returns
    the layer just pushed and puts the hub back as it was before the push;
    the guard of that push, released afterwards, finds its layer gone: it
    logs that one scope too many was popped and leaves the stack alone. *)
Theorem pop_scope_unsafe_pops_top self w h :
  hubs w !! self = Some h →
  (_stack h = [] → pop_scope_unsafe self w = (Raise IndexError, w)) ∧
  (∀ below layer,
     _stack h = below ++ [layer] → below ≠ [] →
     pop_scope_unsafe self w =
       (Return layer,
        mkWorld
          (<[self := mkHub below (_last_event_id h) (_old_hubs h)]> (hubs w))
          (scopes w) (_local w) (logger w) (trace_ids w))) ∧
  (∀ continue_trace g w1,
     push_scope self continue_trace w = (Return g, w1) →
     ∃ w2,
       pop_scope_unsafe self w1 = (Return (_layer g), w2) ∧
       hubs w2 = hubs w ∧ logger w2 = logger w ∧
       _ScopeManager__exit__ g w2 =
         (Return tt, logged w2 ERROR (Scope_popped_too_soon 1))).
Proof.
  intros Hh. pose proof (lookup_lt_Some _ _ _ Hh) as Hlt.
  split; [|split].
  - intros Hst. run_monad. rewrite Hh. simpl. by rewrite Hst.
  - intros below layer Hst Hne. by apply pop_scope_unsafe_run.
  - intros ct g w1 Hpush.
    destruct (push_scope_inv _ _ _ _ _ Hpush) as (h0 & cl & sc & s & Hh0 & Htop & Hs).
    rewrite Hh in Hh0. injection Hh0 as <-.
    rewrite (push_scope_run w self ct h cl sc s) in Hpush by done.
    injection Hpush as <- <-. simpl.
    assert (_stack h ≠ []) as Hne.
    { intros Hnil. rewrite Hnil, getitem_nil in Htop. done. }
    eexists.
    erewrite (pop_scope_unsafe_run self _ _ (_stack h)); cycle 1.
    { simpl. by apply list_lookup_insert_eq. }
    { done. }
    { done. }
    split; [reflexivity|]. simpl.
    rewrite list_insert_insert_eq.
    assert (<[self := mkHub (_stack h) (_last_event_id h) (_old_hubs h)]> (hubs w)
            = hubs w) as Hid.
    { apply list_insert_id. rewrite Hh. by destruct h. }
    rewrite Hid. split; [done|]. split; [done|].
    erewrite exit_too_soon; cycle 1.
    { simpl. exact Hh. }
    { simpl. lia. }
    simpl. do 3 f_equal. lia.
Qed.

(** ** Releasing a guard on a stack that is not as the guard left it *)

(** X3: when scopes pushed after the guard's own were never released, the
    release of the guard removes its layer and all the layers above it at
    once, and logs one warning with the number of leaked layers and the
    leaked layers themselves; the stack is back to the layers below the
    guard's. *)
Theorem release_drops_leaked_scopes g w h below extra :
  hubs w !! _hub g = Some h →
  _stack h = below ++ [_layer g] ++ extra →
  _original_len g = len below + 1 →
  extra ≠ [] →
  _ScopeManager__exit__ g w =
    (Return tt,
     mkWorld
       (<[_hub g := mkHub below (_last_event_id h) (_old_hubs h)]> (hubs w))
       (scopes w) (_local w)
       (logger w ++ [(WARNING, Leaked_scopes (len extra) extra)])
       (trace_ids w)).
Proof.
  intros Hh Hst Hlen Hextra.
  assert (0 < len extra) as Hpos.
  { destruct extra; [done|]. unfold len. simpl. lia. }
  rewrite (exit_pops g w h (_layer g)); cycle 1.
  { done. }
  { rewrite Hst, !len_app. unfold len in *. simpl. lia. }
  { rewrite Hst, Hlen. replace (len below + 1 - 1) with (len below) by lia.
    apply getitem_app_middle. }
  rewrite Hst at 1. rewrite Hlen.
  replace (len below + 1 - 1) with (len below) by lia.
  rewrite del_from_app.
  replace (len (_stack h) >? len below + 1) with true
    by (rewrite Hst, !len_app; unfold len in *; simpl; lia).
  rewrite !bool_decide_eq_true_2 by done. simpl. rewrite ?app_nil_r.
  assert (len (_stack h) - (len below + 1) = len extra) as ->.
  { rewrite Hst, !len_app. unfold len. simpl. lia. }
  assert (slice_from (_stack h) (len below + 1) = extra) as ->; [|done].
  - rewrite Hst. unfold slice_from, slice_start.
    destruct (len below + 1 <? 0) eqn:E; [unfold len in E; lia|].
    rewrite Z.min_l by (rewrite !len_app; unfold len; simpl; lia).
    replace (Z.to_nat (len below + 1)) with (length (below ++ [_layer g]))
      by (rewrite length_app; unfold len; simpl; lia).
    by rewrite app_assoc, drop_app_length.
Qed.

Lemma bind_client_run self new w h below cl sc :
  hubs w !! self = Some h →
  _stack h = below ++ [(cl, sc)] →
  bind_client self new w =
    (Return tt,
     mkWorld
       (<[self := mkHub (below ++ [(new, sc)]) (_last_event_id h) (_old_hubs h)]>
          (hubs w))
       (scopes w) (_local w) (logger w) (trace_ids w)).
Proof.
  intros Hh Hst. unfold bind_client, mbind, M_bind.
  rewrite (top_run self w h (cl, sc)) by (try done; rewrite Hst; apply getitem_last).
  by rewrite (set_top_run self _ w h below (cl, sc)).
Qed.

Lemma insert_id_hub (hs : list Hub) self h :
  hs !! self = Some h →
  <[self := mkHub (_stack h) (_last_event_id h) (_old_hubs h)]> hs = hs.
Proof. intros Hh. apply list_insert_id. rewrite Hh. by destruct h. Qed.

(** X4: a client bound while a pushed scope is active does not outlive the
    scope.  [push_scope], then [bind_client], then the release of the guard
    leave every hub as it was before the push, the former client included;
    the release logs the warning about [init()] inside a pushed scope when
    the client bound differs from the one the layer was pushed with, and
    nothing when it is the same. *)
Theorem client_bound_in_pushed_scope_is_dropped self continue_trace new w h cl sc s :
  hubs w !! self = Some h →
  getitem (_stack h) (-1) = Some (cl, sc) →
  scopes w !! sc = Some s →
  ∃ w',
    (g ← push_scope self continue_trace;
     bind_client self new;;
     _ScopeManager__exit__ g) w = (Return tt, w') ∧
    hubs w' = hubs w ∧
    logger w' =
      logger w ++
      (if bool_decide (new = cl) then []
       else [(WARNING, Init_called_inside_of_pushed_scope)]).
Proof.
  intros Hh Htop Hs. pose proof (lookup_lt_Some _ _ _ Hh) as Hlt.
  unfold mbind at 1 2. unfold M_bind.
  rewrite (push_scope_run w self continue_trace h cl sc s) by done.
  set (child := length (scopes w)).
  erewrite (bind_client_run self new _ _ (_stack h) cl child); cycle 1.
  { simpl. by apply list_lookup_insert_eq. }
  { done. }
  simpl. rewrite list_insert_insert_eq.
  erewrite (exit_pops _ _ _ (new, child)); cycle 1.
  { simpl. by apply list_lookup_insert_eq. }
  { simpl. rewrite len_app. unfold len. simpl. lia. }
  { simpl. replace (len (_stack h) + 1 - 1) with (len (_stack h)) by lia.
    apply getitem_app_middle. }
  eexists. split; [reflexivity|]. simpl.
  replace (len (_stack h) + 1 - 1) with (len (_stack h)) by lia.
  rewrite del_from_app, list_insert_insert_eq, insert_id_hub by done.
  split; [done|].
  replace (len (_stack h ++ [(new, child)]) >? len (_stack h) + 1) with false
    by (rewrite len_app; unfold len; simpl; lia).
  rewrite (bool_decide_eq_true_2 (child = child)) by done. simpl.
  destruct (decide (new = cl)) as [->|Hne].
  - by rewrite !bool_decide_eq_true_2.
  - by rewrite !bool_decide_eq_false_2.
Qed.

(** X5: when the layer at the guard's position holds another scope than the
    one the guard pushed, the release logs the error "wrong scope found",
    with the scope it found and the scope of the guard, and removes the
    layer all the same; in that case it does not compare the clients. *)
Theorem release_pops_a_foreign_scope g w h below layer :
  hubs w !! _hub g = Some h →
  _stack h = below ++ [layer] →
  _original_len g = len below + 1 →
  snd layer ≠ snd (_layer g) →
  _ScopeManager__exit__ g w =
    (Return tt,
     mkWorld
       (<[_hub g := mkHub below (_last_event_id h) (_old_hubs h)]> (hubs w))
       (scopes w) (_local w)
       (logger w ++ [(ERROR, Wrong_scope_found (snd layer) (snd (_layer g)))])
       (trace_ids w)).
Proof.
  intros Hh Hst Hlen Hne.
  rewrite (exit_pops g w h layer); cycle 1.
  { done. }
  { rewrite Hst, len_app. unfold len in *. simpl. lia. }
  { rewrite Hst, Hlen. replace (len below + 1 - 1) with (len below) by lia.
    apply getitem_app_middle. }
  rewrite Hst at 1. rewrite Hlen.
  replace (len below + 1 - 1) with (len below) by lia.
  rewrite del_from_app.
  replace (len (_stack h) >? len below + 1) with false
    by (rewrite Hst, len_app; unfold len; simpl; lia).
  by rewrite bool_decide_eq_false_2.
Qed.

(** X6: a guard released twice pops once.  When the first release finds the
    stack at least as deep as the guard recorded, the second release of the
    same guard logs that one scope too many was popped and changes nothing
    else. *)
Theorem second_release_changes_nothing g w h :
  hubs w !! _hub g = Some h →
  1 ≤ _original_len g ≤ len (_stack h) →
  ∃ w1,
    _ScopeManager__exit__ g w = (Return tt, w1) ∧
    depth w1 (_hub g) = Some (_original_len g - 1) ∧
    _ScopeManager__exit__ g w1 =
      (Return tt, logged w1 ERROR (Scope_popped_too_soon 1)).
Proof.
  intros Hh [Hone Hle]. pose proof (lookup_lt_Some _ _ _ Hh) as Hlt.
  destruct (exit_layer_exists g h) as [layer Hl]; [done|].
  rewrite (exit_pops g w h layer) by done.
  eexists. split; [reflexivity|].
  unfold depth. simpl. rewrite list_lookup_insert_eq by done. simpl.
  rewrite len_del_from by lia. split; [done|].
  erewrite exit_too_soon; cycle 1.
  { simpl. by apply list_lookup_insert_eq. }
  { simpl. rewrite len_del_from by lia. lia. }
  simpl. rewrite len_del_from by lia. do 3 f_equal. lia.
Qed.

(** ** push_scope with a callback *)

(** X7: [push_scope(callback)] runs the callback on the scope of a new
    layer, cloned from the top scope with a regenerated propagation context,
    and pops that layer afterwards.  When the callback leaves the hubs alone
    (it may change scopes and log), the call ends with every hub as before
    the push and with the outcome of the callback: the value it returned or
    the exception it raised; the release logs nothing. *)
Theorem push_scope_callback_restores_stack self callback w h cl sc s :
  hubs w !! self = Some h →
  getitem (_stack h) (-1) = Some (cl, sc) →
  scopes w !! sc = Some s →
  (∀ scope w0, hubs (snd (callback scope w0)) = hubs w0) →
  let child := length (scopes w) in
  let pushed := snd (push_scope self true w) in
  let called := callback child pushed in
  scopes pushed !! child =
    Some (mkScope (_tags s) (_breadcrumbs s) (trace_ids w)) ∧
  ∃ w',
    push_scope_callback self callback w = (fst called, w') ∧
    hubs w' = hubs w ∧
    scopes w' = scopes (snd called) ∧
    logger w' = logger (snd called) ∧
    _local w' = _local (snd called).
Proof.
  intros Hh Htop Hs Hcb child pushed called.
  pose proof (lookup_lt_Some _ _ _ Hh) as Hlt.
  assert (push_scope self true w =
            (Return (mkScopeManager self (len (_stack h) + 1) (cl, child)), pushed))
    as Hpush.
  { subst pushed. by rewrite (push_scope_run w self true h cl sc s). }
  assert (hubs pushed =
            <[self := mkHub (_stack h ++ [(cl, child)])
                        (_last_event_id h) (_old_hubs h)]> (hubs w)) as Hpushed.
  { subst pushed. by rewrite (push_scope_run w self true h cl sc s). }
  split.
  { subst pushed. rewrite (push_scope_run w self true h cl sc s) by done.
    simpl. apply lookup_snoc. }
  unfold push_scope_callback, mbind, M_bind. rewrite Hpush.
  unfold _ScopeManager__enter__, mret, M_ret, with_. simpl.
  fold called. pose proof (Hcb child pushed) as Hkept. fold called in Hkept.
  destruct called as [r w2] eqn:Hcalled. simpl in *.
  erewrite (exit_pops _ w2 _ (cl, child)); cycle 1.
  { simpl. rewrite Hkept, Hpushed. by apply list_lookup_insert_eq. }
  { simpl. rewrite len_app. unfold len. simpl. lia. }
  { simpl. replace (len (_stack h) + 1 - 1) with (len (_stack h)) by lia.
    apply getitem_app_middle. }
  simpl.
  replace (len (_stack h) + 1 - 1) with (len (_stack h)) by lia.
  replace (len (_stack h ++ [(cl, child)]) >? len (_stack h) + 1) with false
    by (rewrite len_app; unfold len; simpl; lia).
  rewrite !bool_decide_eq_true_2 by done. simpl.
  rewrite del_from_app, Hkept, Hpushed, list_insert_insert_eq, insert_id_hub,
    app_nil_r by done.
  destruct r; eexists; (split; [reflexivity|]); done.
Qed.

(** ** Hub.__init__ *)

Lemma Hub__init__with_scope w hub h client other_scope scope :
  hubs w !! hub = Some h →
  getitem (_stack h) (-1) = Some (client, other_scope) →
  Hub__init__ (Some (inl hub)) (Some scope) w =
    (Return (length (hubs w)),
     mkWorld (hubs w ++ [mkHub [(client, scope)] None []])
       (scopes w) (_local w) (logger w) (trace_ids w)).
Proof.
  intros Hh Htop. unfold Hub__init__, mbind, M_bind.
  by rewrite (top_run hub w h (client, other_scope)).
Qed.

Lemma Hub__init__from_hub w hub h client other_scope s :
  hubs w !! hub = Some h →
  getitem (_stack h) (-1) = Some (client, other_scope) →
  scopes w !! other_scope = Some s →
  Hub__init__ (Some (inl hub)) None w =
    (Return (length (hubs w)),
     mkWorld (hubs w ++ [mkHub [(client, length (scopes w))] None []])
       (scopes w ++ [s]) (_local w) (logger w) (trace_ids w)).
Proof.
  intros Hh Htop Hs. unfold Hub__init__, mbind, M_bind.
  rewrite (top_run hub w h (client, other_scope)) by done.
  run_monad. by rewrite Hs.
Qed.

Lemma set_tag_run scope key value w s :
  scopes w !! scope = Some s →
  set_tag scope key value w =
    (Return tt,
     mkWorld (hubs w)
       (<[scope := mkScope (<[key := value]> (_tags s)) (_breadcrumbs s)
                     (_propagation_context s)]> (scopes w))
       (_local w) (logger w) (trace_ids w)).
Proof. intros Hs. run_monad. by rewrite Hs. Qed.

(** X8: a hub built from another hub takes the client of that hub's top
    layer and leaves that hub as it is.  Built with the other hub's top
    scope passed as [scope], it holds that very scope object, so a tag set
    through the scope of the new hub shows in the top scope of the other
    hub; built with no [scope], it holds a copy, and the same tag leaves the
    top scope of the other hub as it was.  Built from a hub whose stack is
    empty, it raises [IndexError] and creates nothing. *)
Theorem Hub__init__shares_a_given_scope w hub h cl sc s key value :
  hubs w !! hub = Some h →
  scopes w !! sc = Some s →
  (getitem (_stack h) (-1) = Some (cl, sc) →
   (∃ w',
      (new ← Hub__init__ (Some (inl hub)) (Some sc);
       scope ← scope new;
       set_tag scope key value;;
       client new) w = (Return cl, w') ∧
      hubs w' !! hub = Some h ∧
      _tags <$> scopes w' !! sc = Some (<[key := value]> (_tags s))) ∧
   (∃ w',
      (new ← Hub__init__ (Some (inl hub)) None;
       scope ← scope new;
       set_tag scope key value;;
       client new) w = (Return cl, w') ∧
      hubs w' !! hub = Some h ∧
      scopes w' !! sc = Some s)) ∧
  (_stack h = [] →
   ∀ scope, Hub__init__ (Some (inl hub)) scope w = (Raise IndexError, w)).
Proof.
  intros Hh Hs. pose proof (lookup_lt_Some _ _ _ Hh) as Hlt.
  pose proof (lookup_lt_Some _ _ _ Hs) as Hlts.
  split.
  - intros Htop. split.
    + eexists.
      rewrite (bind_return _ _ _ _ _ (Hub__init__with_scope w hub h cl sc sc Hh Htop)).
      erewrite bind_return; cycle 1.
      { unfold scope. erewrite bind_return; [reflexivity|].
        apply (top_run _ _ (mkHub [(cl, sc)] None []) (cl, sc));
          [apply lookup_snoc|done]. }
      erewrite bind_return; cycle 1.
      { by apply set_tag_run. }
      erewrite (client_run _ _ (mkHub [(cl, sc)] None []) cl sc); cycle 1.
      { simpl. apply lookup_snoc. }
      { done. }
      split; [reflexivity|]. simpl.
      split; [by rewrite lookup_app_l|].
      by rewrite list_lookup_insert_eq.
    + eexists.
      rewrite (bind_return _ _ _ _ _ (Hub__init__from_hub w hub h cl sc s Hh Htop Hs)).
      erewrite bind_return; cycle 1.
      { unfold scope. erewrite bind_return; [reflexivity|].
        apply (top_run _ _ (mkHub [(cl, length (scopes w))] None [])
                 (cl, length (scopes w))); [apply lookup_snoc|done]. }
      erewrite bind_return; cycle 1.
      { apply set_tag_run. simpl. apply lookup_snoc. }
      erewrite (client_run _ _ (mkHub [(cl, length (scopes w))] None [])
                  cl (length (scopes w))); cycle 1.
      { simpl. apply lookup_snoc. }
      { done. }
      split; [reflexivity|]. simpl.
      split; [by rewrite lookup_app_l|].
      rewrite insert_snoc. by rewrite lookup_app_l.
  - intros Hst scope. unfold Hub__init__, mbind, M_bind.
    by rewrite (top_raises hub w h) by (try done; rewrite Hst; apply getitem_nil).
Qed.

(** ** Hub.__enter__, Hub.__exit__ and Hub.run at the edges *)

Lemma current_unbound_inv ctx w cur wc :
  _local w !! ctx = None →
  current ctx w = (Return cur, wc) →
  cur = length (hubs w) ∧
  ∃ new, hubs wc = hubs w ++ [new] ∧ length (_stack new) = 1%nat ∧
         _old_hubs new = [] ∧ _last_event_id new = None.
Proof.
  intros Hl. run_monad. rewrite Hl. simpl.
  destruct (hubs w !! GLOBAL_HUB) as [g|]; simpl; [|done].
  destruct (getitem (_stack g) (-1)) as [[cl sc]|]; simpl; [|done].
  destruct (scopes w !! sc) as [s|]; simpl; [|done].
  intros [= <- <-]. simpl. split; [done|]. by eexists.
Qed.

(** X9: [Hub.__exit__] on a hub whose undo stack is empty, that is, without
    a matching [__enter__], raises [IndexError] and changes nothing.
    [Hub.__enter__] in a context that has no current hub yet first creates
    that context's default hub, binds nothing else, and pushes the new hub on
    the undo stack, so that the matching [__exit__] leaves the context bound
    to the new hub and not unbound as it was. *)
Theorem Hub__exit__without_enter_and_enter_unbound ctx self w h :
  hubs w !! self = Some h →
  (_old_hubs h = [] → Hub__exit__ ctx self w = (Raise IndexError, w)) ∧
  (∀ cur wc,
     _local w !! ctx = None →
     current ctx w = (Return cur, wc) →
     cur = length (hubs w) ∧ hubs w !! cur = None ∧
     ∃ w1 w2,
       Hub__enter__ ctx self w = (Return self, w1) ∧
       _local w1 !! ctx = Some self ∧
       hubs w1 !! self =
         Some (mkHub (_stack h) (_last_event_id h) (_old_hubs h ++ [cur])) ∧
       is_Some (hubs w1 !! cur) ∧
       Hub__exit__ ctx self w1 = (Return tt, w2) ∧
       _local w2 !! ctx = Some cur ∧
       hubs w2 !! self = Some h).
Proof.
  intros Hh. pose proof (lookup_lt_Some _ _ _ Hh) as Hlt. split.
  - intros Ho. run_monad. rewrite Hh. simpl. by rewrite Ho.
  - intros cur wc Hl Hcur.
    destruct (current_unbound_inv ctx w cur wc Hl Hcur)
      as (-> & new & Hnew & _).
    split; [done|]. split; [by apply lookup_ge_None_2|].
    assert (hubs wc !! self = Some h) as Hh'.
    { rewrite Hnew. by rewrite lookup_app_l. }
    eexists _, _.
    rewrite (Hub__enter__run ctx self w _ wc h Hcur Hh').
    split; [reflexivity|]. simpl.
    split; [apply lookup_insert_eq|].
    split; [apply list_lookup_insert_eq; by eapply lookup_lt_Some|].
    split.
    { rewrite list_lookup_insert_ne by lia. rewrite Hnew, lookup_snoc. by eexists. }
    erewrite (Hub__exit__run ctx self _ _ (_old_hubs h) (length (hubs w))); cycle 1.
    { simpl. apply list_lookup_insert_eq. by eapply lookup_lt_Some. }
    { done. }
    split; [reflexivity|]. simpl.
    split; [apply lookup_insert_eq|].
    rewrite list_insert_insert_eq, list_lookup_insert_eq
      by (by eapply lookup_lt_Some).
    by destruct h.
Qed.

(** X10: [hub.run(callback)] gives the outcome of the callback, run with the
    hub current: the value it returned or the exception it raised.  Provided
    the callback leaves the undo stacks as it found them (it may activate
    hubs in a balanced way), the hub that was current on entry is current
    again afterwards and the undo stack of the hub is as before. *)
Theorem run_gives_callback_outcome {A} ctx self (callback : M A) w cur wc h :
  current ctx w = (Return cur, wc) →
  hubs wc !! self = Some h →
  preserves (keeps_activation ctx) callback →
  let entered := snd (Hub__enter__ ctx self w) in
  _local entered !! ctx = Some self ∧
  ∃ w',
    run ctx self callback w = (fst (callback entered), w') ∧
    _local w' !! ctx = Some cur ∧
    ∃ h', hubs w' !! self = Some h' ∧ _old_hubs h' = _old_hubs h.
Proof.
  intros Hcur Hh Hcb entered.
  pose proof (lookup_lt_Some _ _ _ Hh) as Hlt.
  assert (Hub__enter__ ctx self w = (Return self, entered)) as Hent.
  { subst entered. by rewrite (Hub__enter__run ctx self w cur wc h). }
  assert (_local entered !! ctx = Some self ∧
          hubs entered !! self =
            Some (mkHub (_stack h) (_last_event_id h) (_old_hubs h ++ [cur])))
    as [Hloc Hhub].
  { subst entered. rewrite (Hub__enter__run ctx self w cur wc h) by done. simpl.
    split; [apply lookup_insert_eq|by apply list_lookup_insert_eq]. }
  split; [done|].
  unfold run, mbind, M_bind. rewrite Hent. unfold with_.
  pose proof (Hcb entered) as [Hkept _].
  destruct (callback entered) as [r w2]. simpl in *.
  destruct (Hkept _ _ Hhub) as (h2 & Hh2 & Ho2). simpl in Ho2.
  rewrite (Hub__exit__run ctx self w2 h2 (_old_hubs h) cur) by done.
  destruct r; eexists; (split; [reflexivity|]); simpl;
    (split; [apply lookup_insert_eq|]);
    eexists; (split; [apply list_lookup_insert_eq; by eapply lookup_lt_Some|]);
    done.
Qed.

(** ** add_breadcrumb *)

(** X11: breadcrumbs added while no client is bound are dropped.  However
    many are added, every call returns, the hubs and the scopes stay as they
    were, and the log gets one entry per dropped breadcrumb. *)
Theorem breadcrumbs_without_client_are_dropped self crumbs w h sc :
  hubs w !! self = Some h →
  getitem (_stack h) (-1) = Some (None, sc) →
  add_breadcrumbs self crumbs w =
    (Return tt,
     mkWorld (hubs w) (scopes w) (_local w)
       (logger w ++
        replicate (length crumbs) (INFO, Dropped_breadcrumb_because_no_client_bound))
       (trace_ids w)).
Proof.
  intros Hh Htop. revert w Hh.
  induction crumbs as [|crumb crumbs IH]; intros w Hh.
  - simpl. rewrite app_nil_r. by destruct w.
  - simpl. unfold mbind at 1. unfold M_bind, add_breadcrumb, mbind, M_bind.
    rewrite (top_run self w h (None, sc)) by done.
    unfold log. rewrite IH by done. simpl.
    by rewrite <- app_assoc.
Qed.

(** X12: as the docstring of [get_integration] promises, when it returns an
    integration the hub has a client attached, the one that holds this
    integration; and it changes nothing. *)
Theorem get_integration_implies_client `{Collaborators} self name w integration w' :
  get_integration self name w = (Return (Some integration), w') →
  w' = w ∧
  ∃ c, client self w = (Return (Some c), w) ∧
       Client_get_integration c name = Some integration.
Proof.
  unfold get_integration, mbind, M_bind.
  destruct (client self w) as [[[c|]|e] w1] eqn:Hc; simpl; try done.
  intros [= Hi <-].
  assert (w1 = w) as ->.
  { revert Hc. unfold client, top, get_hub, get_world, of_option, raise,
      mbind, M_bind, mret, M_ret. simpl.
    destruct (hubs w !! self) as [h|]; simpl; [|done].
    destruct (getitem (_stack h) (-1)); simpl; [|done].
    by intros [= _ <-]. }
  split; [done|]. by exists c.
Qed.

(** ** init *)

(** X13: [init] binds the new client on the hub that is current for the
    calling context, on its top layer, and keeps the scope of that layer;
    the hub stays current and the other hubs are not touched.  In a context
    that had no current hub, the client therefore goes to the default hub
    created for that context at that moment, and every hub that existed
    before, the global hub included, is left without it. *)
Theorem init_binds_client_on_current_hub ctx c w cur wc h below cl sc :
  current ctx w = (Return cur, wc) →
  hubs wc !! cur = Some h →
  _stack h = below ++ [(cl, sc)] →
  ∃ w',
    _init ctx c w = (Return (mk_InitGuard (Some c)), w') ∧
    current ctx w' = (Return cur, w') ∧
    client cur w' = (Return (Some c), w') ∧
    scope cur w' = (Return sc, w') ∧
    (∀ k, k ≠ cur → hubs w' !! k = hubs wc !! k) ∧
    (_local w !! ctx = None →
     ∀ k hk, hubs w !! k = Some hk → hubs w' !! k = Some hk).
Proof.
  intros Hcur Hh Hst. pose proof (lookup_lt_Some _ _ _ Hh) as Hlt.
  unfold _init, mbind, M_bind. rewrite Hcur.
  rewrite (bind_client_run cur (Some c) wc h below cl sc) by done.
  eexists. split; [reflexivity|]. simpl.
  split; [|split; [|split; [|split]]].
  - apply current_bound. simpl. by eapply current_returns_bound.
  - unfold client, mbind, M_bind. erewrite top_run; cycle 1.
    + simpl. by apply list_lookup_insert_eq.
    + simpl. apply getitem_last.
    + done.
  - unfold scope, mbind, M_bind. erewrite top_run; cycle 1.
    + simpl. by apply list_lookup_insert_eq.
    + simpl. apply getitem_last.
    + done.
  - intros k Hk. by rewrite list_lookup_insert_ne.
  - intros Hl k hk Hk.
    destruct (current_unbound_inv ctx w cur wc Hl Hcur) as (-> & new & Hnew & _).
    pose proof (lookup_lt_Some _ _ _ Hk) as Hklt.
    rewrite list_lookup_insert_ne by lia.
    rewrite Hnew. by rewrite lookup_app_l.
Qed.

(** ** The excepthook *)

Lemma get_integration_run `{Collaborators} self name w h cl sc :
  hubs w !! self = Some h →
  getitem (_stack h) (-1) = Some (cl, sc) →
  get_integration self name w =
    (Return (match cl with
             | Some c => Client_get_integration c name
             | None => None
             end), w).
Proof.
  intros Hh Htop. unfold get_integration.
  rewrite (bind_return _ _ _ _ _ (client_run self w h cl sc Hh Htop)).
  by destruct cl.
Qed.

(** X14: the hook that replaces [sys.excepthook] always hands the exception
    on to the hook it replaced, and its result is the result of that hook,
    on a current hub that has a layer and with an internal-error handler
    that returns.  It reports the exception first only when the current
    hub has a client with the excepthook integration and either
    [always_run] is set or the interpreter is not interactive; otherwise the
    old hook runs on the store as [Hub.current] left it.  When it reports
    and the event is built without an error, the store the old hook runs on
    is the one [capture_event] leaves. *)
Theorem excepthook_always_chains `{ScopeCapture} `{Collaborators} {A}
    ctx (old_excepthook : string → M A) exc_info w cur wc h cl sc :
  current ctx w = (Return cur, wc) →
  hubs wc !! cur = Some h →
  getitem (_stack h) (-1) = Some (cl, sc) →
  (∀ e w0, ∃ w0', capture_internal_exception e w0 = (Return tt, w0')) →
  let reports :=
    match cl with
    | Some c =>
        match Client_get_integration c "excepthook" with
        | Some integration => _should_send (always_run integration)
        | None => false
        end
    | None => false
    end in
  ∃ w',
    sentry_sdk_excepthook ctx old_excepthook exc_info w = old_excepthook exc_info w' ∧
    (reports = false → w' = wc) ∧
    (reports = true →
     ∀ event hint,
       event_from_exception exc_info cl wc = (Return (event, hint), wc) →
       w' = snd (capture_event cur event hint None ∅ wc)).
Proof.
  intros Hcur Hh Htop Hhandler reports.
  unfold sentry_sdk_excepthook.
  rewrite (bind_return _ _ _ _ _ Hcur).
  rewrite (bind_return _ _ _ _ _ (get_integration_run cur "excepthook" wc h cl sc Hh Htop)).
  destruct cl as [c|]; cycle 1.
  { exists wc. split; [reflexivity|]. by split. }
  simpl in reports. subst reports.
  destruct (Client_get_integration c "excepthook") as [integration|]; cycle 1.
  { exists wc. split; [reflexivity|]. by split. }
  destruct (_should_send (always_run integration)); cycle 1.
  { exists wc. split; [reflexivity|]. by split. }
  rewrite bind_assoc.
  rewrite (bind_return _ _ _ _ _ (client_run cur wc h (Some c) sc Hh Htop)).
  set (body := event_from_exception exc_info (Some c) ≫= _).
  destruct (body wc) as [[[]|e] w1] eqn:Hbody.
  - exists w1. erewrite bind_return; cycle 1.
    { unfold capture_internal_exceptions. by rewrite Hbody. }
    split; [reflexivity|]. split; [done|].
    intros _ event hint Hev. revert Hbody. subst body.
    rewrite (bind_return _ _ _ _ _ Hev).
    unfold mbind, M_bind.
    destruct (capture_event cur event hint None ∅ wc) as [[r|e] w2]; simpl;
      [by intros [= <-]|done].
  - destruct (Hhandler e w1) as [w2 Hw2].
    exists w2. erewrite bind_return; cycle 1.
    { unfold capture_internal_exceptions. rewrite Hbody.
      by rewrite (bind_return _ _ _ _ _ Hw2). }
    split; [reflexivity|]. split; [done|].
    intros _ event hint Hev. exfalso. revert Hbody. subst body.
    rewrite (bind_return _ _ _ _ _ Hev).
    unfold capture_event, mbind, M_bind.
    rewrite (top_run cur wc h (Some c, sc)) by done.
    destruct (Scope_capture_event sc event hint c None ∅) as [id|]; simpl;
      [|done].
    destruct (bool_decide (event !! "type"%string = Some "transaction"%string));
      simpl; [done|].
    by rewrite (set_last_event_id_run cur (Some id) wc h).
Qed.

(** ** Nested monitors *)

Lemma monitor_unfold monitor_slug body s :
  Crons.monitor monitor_slug body s =
    match
      body
        (Crons.mkState (Crons.clock s)
           (Crons.captured s ++
            [Crons.mkCheckIn monitor_slug None Crons.IN_PROGRESS None])
           (Crons.uuid4 s))
    with
    | (Crons.Returns _, s') =>
        (Crons.Returns tt,
         Crons.mkState (Crons.clock s')
           (Crons.captured s' ++
            [Crons.mkCheckIn monitor_slug
               (Some (Crons.uuid4 s (length (Crons.captured s)))) Crons.OK
               (Some (Crons.clock s' - Crons.clock s))])
           (Crons.uuid4 s'))
    | (Crons.Raises e, s') =>
        if Crons.isinstance_Exception e
        then
          (Crons.Raises e,
           Crons.mkState (Crons.clock s')
             (Crons.captured s' ++
              [Crons.mkCheckIn monitor_slug
                 (Some (Crons.uuid4 s (length (Crons.captured s)))) Crons.ERROR
                 (Some (Crons.clock s' - Crons.clock s))])
             (Crons.uuid4 s'))
        else (Crons.Raises e, s')
    end.
Proof.
  unfold Crons.monitor, Crons.try_except_Exception, Crons.now,
    Crons.capture_checkin, Crons.reraise, mbind, Crons.C_bind, mret,
    Crons.C_ret. simpl.
  match goal with |- context [body ?s1] => destruct (body s1) as [[[]|e] s'] end;
    simpl; [done|].
  by destruct (Crons.isinstance_Exception e).
Qed.

(** X15: monitors nested around a body do not change what the body does to
    control flow: the nest returns when the body returns and raises the
    body's exception when it raises.  The body runs after one in-progress
    check-in per monitor, outermost first.  When it returns, or raises an
    instance of [Exception], every monitor captures its closing check-in,
    innermost first, each under the identifier of its own opening check-in,
    all with status OK, or all with status ERROR.  When it raises any other
    exception no closing check-in is captured at all.  The durations, which
    each monitor measures from its own entry, are left out. *)
Theorem nested_monitors_are_transparent slugs body s :
  let entered :=
    Crons.mkState (Crons.clock s)
      (Crons.captured s ++ opening_check_ins slugs) (Crons.uuid4 s) in
  let closing status :=
    closing_check_ins (Crons.uuid4 s) (length (Crons.captured s)) slugs status in
  let nest := monitors slugs body s in
  match body entered with
  | (Crons.Returns _, s') =>
      fst nest = Crons.Returns tt ∧
      check_in_summary <$> Crons.captured (snd nest) =
        (check_in_summary <$> Crons.captured s') ++ closing Crons.OK
  | (Crons.Raises e, s') =>
      fst nest = Crons.Raises e ∧
      check_in_summary <$> Crons.captured (snd nest) =
        (check_in_summary <$> Crons.captured s') ++
        (if Crons.isinstance_Exception e then closing Crons.ERROR else [])
  end.
Proof.
  revert s. induction slugs as [|slug slugs IH]; intros s; simpl.
  - rewrite app_nil_r.
    replace (Crons.mkState (Crons.clock s) (Crons.captured s) (Crons.uuid4 s))
      with s by (by destruct s).
    destruct (body s) as [[[]|e] s']; simpl; rewrite ?app_nil_r; [done|].
    by destruct (Crons.isinstance_Exception e); rewrite ?app_nil_r.
  - rewrite monitor_unfold.
    specialize (IH (Crons.mkState (Crons.clock s)
                      (Crons.captured s ++
                       [Crons.mkCheckIn slug None Crons.IN_PROGRESS None])
                      (Crons.uuid4 s))).
    simpl in IH. rewrite <- app_assoc in IH. simpl in IH.
    rewrite length_app in IH. simpl in IH.
    replace (length (Crons.captured s) + 1)%nat with (S (length (Crons.captured s)))
      in IH by lia.
    destruct (body _) as [[[]|e] s'].
    + destruct IH as [Hr Hc].
      destruct (monitors slugs body _) as [r s'']. simpl in Hr, Hc. subst r.
      simpl. split; [done|].
      by rewrite fmap_app, Hc, <- app_assoc.
    + destruct IH as [Hr Hc].
      destruct (monitors slugs body _) as [r s'']. simpl in Hr, Hc. subst r.
      destruct (Crons.isinstance_Exception e); simpl; (split; [done|]).
      * by rewrite fmap_app, Hc, <- app_assoc.
      * by rewrite Hc.
Qed.

(** ** An event captured inside a pushed scope *)

Lemma capture_message_run `{ScopeCapture}
    self message level scope_arg scope_kwargs w h c sc :
  hubs w !! self = Some h →
  getitem (_stack h) (-1) = Some (Some c, sc) →
  let id := Scope_capture_message sc message level c scope_arg scope_kwargs in
  capture_message self message level scope_arg scope_kwargs w =
    (Return id,
     match id with
     | Some _ =>
         mkWorld (<[self := mkHub (_stack h) id (_old_hubs h)]> (hubs w))
           (scopes w) (_local w) (logger w) (trace_ids w)
     | None => w
     end).
Proof.
  intros Hh Htop id. unfold capture_message.
  rewrite (bind_return _ _ _ _ _ (top_run self w h (Some c, sc) Hh Htop)).
  fold id. destruct id as [i|]; simpl.
  - by rewrite (bind_return _ _ _ _ _ (set_last_event_id_run self (Some i) w h Hh)).
  - done.
Qed.

Lemma last_event_id_run self w h :
  hubs w !! self = Some h →
  last_event_id self w = (Return (_last_event_id h), w).
Proof. intros Hh. run_monad. by rewrite Hh. Qed.

(** X16: what is bound inside a pushed scope ends with the scope, what is
    captured there does not.  Push a scope, bind a client, capture a
    message, release the guard: the message went to the client bound
    inside, with the pushed scope; after the release the stack is the one
    before the push, with its former client, and [last_event_id()] answers
    with the identifier of the message when the client gave one, and with
    the former value otherwise. *)
Theorem last_event_id_outlives_pushed_scope `{ScopeCapture}
    self continue_trace c message level scope_arg scope_kwargs w h cl sc s :
  hubs w !! self = Some h →
  getitem (_stack h) (-1) = Some (cl, sc) →
  scopes w !! sc = Some s →
  let id :=
    Scope_capture_message (length (scopes w)) message level c scope_arg
      scope_kwargs in
  let last := match id with Some _ => id | None => _last_event_id h end in
  ∃ w',
    (g ← push_scope self continue_trace;
     bind_client self (Some c);;
     r ← capture_message self message level scope_arg scope_kwargs;
     _ScopeManager__exit__ g;;
     i ← last_event_id self;
     mret (r, i)) w = (Return (id, last), w') ∧
    hubs w' !! self = Some (mkHub (_stack h) last (_old_hubs h)).
Proof.
  intros Hh Htop Hs id last. pose proof (lookup_lt_Some _ _ _ Hh) as Hlt.
  set (child := length (scopes w)) in *.
  rewrite (bind_return _ _ _ _ _ (push_scope_run w self continue_trace h cl sc s Hh Htop Hs)).
  fold child.
  erewrite bind_return; cycle 1.
  { eapply (bind_client_run self (Some c) _ _ (_stack h) cl child);
      [simpl; by apply list_lookup_insert_eq|done]. }
  simpl. rewrite list_insert_insert_eq.
  erewrite bind_return; cycle 1.
  { eapply (capture_message_run self message level scope_arg scope_kwargs _
             (mkHub (_stack h ++ [(Some c, child)]) (_last_event_id h) (_old_hubs h))
             c child);
      [simpl; by apply list_lookup_insert_eq|simpl; apply getitem_last]. }
  fold id.
  assert (∀ w1 lei,
            hubs w1 =
              <[self := mkHub (_stack h ++ [(Some c, child)]) lei (_old_hubs h)]>
                (hubs w) →
            ∃ w',
              (_ScopeManager__exit__
                 (mkScopeManager self (len (_stack h) + 1) (cl, child));;
               i ← last_event_id self; mret (id, i)) w1 = (Return (id, lei), w') ∧
              hubs w' !! self = Some (mkHub (_stack h) lei (_old_hubs h)))
    as Hrest.
  { intros w1 lei Hw1.
    assert (hubs w1 !! self =
              Some (mkHub (_stack h ++ [(Some c, child)]) lei (_old_hubs h)))
      as Hh1 by (rewrite Hw1; by apply list_lookup_insert_eq).
    eexists. erewrite bind_return; cycle 1.
    { eapply (exit_pops _ w1 _ (Some c, child)).
      - exact Hh1.
      - simpl. rewrite len_app. unfold len. simpl. lia.
      - simpl. replace (len (_stack h) + 1 - 1) with (len (_stack h)) by lia.
        apply getitem_app_middle. }
    simpl. replace (len (_stack h) + 1 - 1) with (len (_stack h)) by lia.
    rewrite del_from_app, Hw1, list_insert_insert_eq.
    erewrite bind_return; cycle 1.
    { apply last_event_id_run. simpl. by apply list_lookup_insert_eq. }
    split; [reflexivity|]. simpl. by apply list_lookup_insert_eq. }
  subst last. destruct id as [i|] eqn:Hid.
  - apply Hrest. simpl. by rewrite list_insert_insert_eq.
  - by apply Hrest.
Qed.

(** ** One hub per context *)

(** X17: two contexts that have no current hub yet get a hub each.  The two
    hubs differ from one another and from the global hub, each has one layer
    with the client the global hub had on top when it was made and a scope
    object of its own, and the global hub is not changed; each context keeps
    reading its own hub. *)
Theorem contexts_get_separate_hubs ctx1 ctx2 w g cl sc s :
  ctx1 ≠ ctx2 →
  _local w !! ctx1 = None →
  _local w !! ctx2 = None →
  hubs w !! GLOBAL_HUB = Some g →
  getitem (_stack g) (-1) = Some (cl, sc) →
  scopes w !! sc = Some s →
  ∃ h1 h2 s1 s2 w',
    (a ← current ctx1; b ← current ctx2; mret (a, b)) w = (Return (h1, h2), w') ∧
    h1 ≠ h2 ∧ h1 ≠ GLOBAL_HUB ∧ h2 ≠ GLOBAL_HUB ∧
    hubs w' !! h1 = Some (mkHub [(cl, s1)] None []) ∧
    hubs w' !! h2 = Some (mkHub [(cl, s2)] None []) ∧
    s1 ≠ s2 ∧ s1 ≠ sc ∧ s2 ≠ sc ∧
    scopes w' !! s1 = Some s ∧ scopes w' !! s2 = Some s ∧
    scopes w' !! sc = Some s ∧
    hubs w' !! GLOBAL_HUB = Some g ∧
    current ctx1 w' = (Return h1, w') ∧
    current ctx2 w' = (Return h2, w').
Proof.
  intros Hne Hl1 Hl2 Hg Htop Hs.
  pose proof (lookup_lt_Some _ _ _ Hg) as Hlt.
  pose proof (lookup_lt_Some _ _ _ Hs) as Hlts.
  exists (length (hubs w)), (S (length (hubs w))),
    (length (scopes w)), (S (length (scopes w))). eexists.
  rewrite (bind_return _ _ _ _ _ (current_unbound ctx1 w g cl sc s Hl1 Hg Htop Hs)).
  erewrite bind_return; cycle 1.
  { apply (current_unbound ctx2 _ g cl sc s); simpl.
    - by rewrite lookup_insert_ne.
    - by rewrite lookup_app_l.
    - done.
    - by rewrite lookup_app_l. }
  simpl. rewrite !length_app. simpl.
  replace (length (hubs w) + 1)%nat with (S (length (hubs w))) by lia.
  replace (length (scopes w) + 1)%nat with (S (length (scopes w))) by lia.
  split; [reflexivity|]. simpl.
  unfold GLOBAL_HUB in *.
  repeat split; try lia.
  - rewrite lookup_app_l by (rewrite length_app; simpl; lia). apply lookup_snoc.
  - rewrite <- app_assoc. simpl.
    by rewrite lookup_app_r, Nat.sub_succ_l, Nat.sub_diag by lia.
  - rewrite lookup_app_l by (rewrite length_app; simpl; lia). apply lookup_snoc.
  - rewrite <- app_assoc. simpl.
    by rewrite lookup_app_r, Nat.sub_succ_l, Nat.sub_diag by lia.
  - rewrite lookup_app_l by (rewrite length_app; simpl; lia).
    by rewrite lookup_app_l.
  - rewrite lookup_app_l by (rewrite length_app; simpl; lia).
    by rewrite lookup_app_l.
  - apply current_bound. simpl. rewrite lookup_insert_ne by done.
    apply lookup_insert_eq.
  - apply current_bound. simpl. apply lookup_insert_eq.
Qed.

(** ** The further theorems at concrete stores *)

Lemma bind_client_replaces_top_client_witness :
  hubs initial_world !! GLOBAL_HUB = Some (mkHub [(None, 0%nat)] None []) ∧
  ∃ w',
    bind_client GLOBAL_HUB (Some 7%nat) initial_world = (Return tt, w') ∧
    client GLOBAL_HUB w' = (Return (Some 7%nat), w') ∧
    scope GLOBAL_HUB w' = (Return 0%nat, w').
Proof.
  assert (hubs initial_world !! GLOBAL_HUB = Some (mkHub [(None, 0%nat)] None []))
    as Hh by reflexivity.
  split; [exact Hh|].
  destruct (proj1 (bind_client_replaces_top_client GLOBAL_HUB (Some 7%nat)
                     initial_world _ Hh) [] None 0%nat eq_refl)
    as (w' & Hrun & _ & _ & _ & _ & _ & _ & Hclient & Hscope).
  exists w'. repeat split; assumption.
Defined.

Lemma pop_scope_unsafe_pops_top_witness :
  hubs world_depth_3 !! GLOBAL_HUB =
    Some (mkHub [(None, 0%nat); (None, 1%nat); (None, 2%nat)] None []) ∧
  fst (pop_scope_unsafe GLOBAL_HUB world_depth_3) = Return (None, 2%nat) ∧
  depth (snd (pop_scope_unsafe GLOBAL_HUB world_depth_3)) GLOBAL_HUB = Some 2.
Proof.
  assert (hubs world_depth_3 !! GLOBAL_HUB =
            Some (mkHub [(None, 0%nat); (None, 1%nat); (None, 2%nat)] None []))
    as Hh by reflexivity.
  split; [exact Hh|].
  rewrite (proj1 (proj2 (pop_scope_unsafe_pops_top GLOBAL_HUB world_depth_3 _ Hh))
             [(None, 0%nat); (None, 1%nat)] (None, 2%nat) eq_refl)
    by discriminate.
  split; reflexivity.
Defined.

Lemma release_drops_leaked_scopes_witness :
  _ScopeManager__exit__ (mkScopeManager GLOBAL_HUB 2 (None, 1%nat)) world_depth_3 =
    (Return tt,
     mkWorld
       (<[GLOBAL_HUB := mkHub [(None, 0%nat)] None []]> (hubs world_depth_3))
       (scopes world_depth_3) (_local world_depth_3)
       (logger world_depth_3 ++ [(WARNING, Leaked_scopes 1 [(None, 2%nat)])])
       (trace_ids world_depth_3)).
Proof.
  apply (release_drops_leaked_scopes (mkScopeManager GLOBAL_HUB 2 (None, 1%nat))
           world_depth_3
           (mkHub [(None, 0%nat); (None, 1%nat); (None, 2%nat)] None [])
           [(None, 0%nat)] [(None, 2%nat)]).
  - reflexivity.
  - reflexivity.
  - reflexivity.
  - discriminate.
Defined.

Lemma client_bound_in_pushed_scope_is_dropped_witness :
  ∃ w',
    (g ← push_scope GLOBAL_HUB true;
     bind_client GLOBAL_HUB (Some 7%nat);;
     _ScopeManager__exit__ g) initial_world = (Return tt, w') ∧
    hubs w' = hubs initial_world ∧
    logger w' =
      logger initial_world ++ [(WARNING, Init_called_inside_of_pushed_scope)].
Proof.
  apply (client_bound_in_pushed_scope_is_dropped GLOBAL_HUB true (Some 7%nat)
           initial_world (mkHub [(None, 0%nat)] None []) None 0%nat
           (mkScope ∅ [] 0%nat)); reflexivity.
Defined.

Lemma release_pops_a_foreign_scope_witness :
  _ScopeManager__exit__ (mkScopeManager GLOBAL_HUB 3 (None, 9%nat)) world_depth_3 =
    (Return tt,
     mkWorld
       (<[GLOBAL_HUB := mkHub [(None, 0%nat); (None, 1%nat)] None []]>
          (hubs world_depth_3))
       (scopes world_depth_3) (_local world_depth_3)
       (logger world_depth_3 ++ [(ERROR, Wrong_scope_found 2%nat 9%nat)])
       (trace_ids world_depth_3)).
Proof.
  apply (release_pops_a_foreign_scope (mkScopeManager GLOBAL_HUB 3 (None, 9%nat))
           world_depth_3
           (mkHub [(None, 0%nat); (None, 1%nat); (None, 2%nat)] None [])
           [(None, 0%nat); (None, 1%nat)] (None, 2%nat)).
  - reflexivity.
  - reflexivity.
  - reflexivity.
  - simpl. lia.
Defined.

Lemma second_release_changes_nothing_witness :
  ∃ w1,
    _ScopeManager__exit__ (mkScopeManager GLOBAL_HUB 3 (None, 2%nat)) world_depth_3 =
      (Return tt, w1) ∧
    depth w1 GLOBAL_HUB = Some (3 - 1) ∧
    _ScopeManager__exit__ (mkScopeManager GLOBAL_HUB 3 (None, 2%nat)) w1 =
      (Return tt, logged w1 ERROR (Scope_popped_too_soon 1)).
Proof.
  apply (second_release_changes_nothing (mkScopeManager GLOBAL_HUB 3 (None, 2%nat))
           world_depth_3
           (mkHub [(None, 0%nat); (None, 1%nat); (None, 2%nat)] None [])).
  - reflexivity.
  - split; [simpl; lia|vm_compute; discriminate].
Defined.

Lemma push_scope_callback_restores_stack_witness :
  ∃ w',
    push_scope_callback GLOBAL_HUB (λ scope, set_tag scope "k" "v") initial_world =
      (Return tt, w') ∧
    hubs w' = hubs initial_world ∧
    _tags <$> scopes w' !! 1%nat = Some (<["k"%string := "v"%string]> ∅) ∧
    scopes w' !! 0%nat = scopes initial_world !! 0%nat.
Proof.
  destruct (push_scope_callback_restores_stack GLOBAL_HUB
              (λ scope, set_tag scope "k" "v") initial_world
              (mkHub [(None, 0%nat)] None []) None 0%nat (mkScope ∅ [] 0%nat)
              eq_refl eq_refl eq_refl)
    as (_ & w' & Hrun & Hhubs & Hscopes & _).
  { intros scope w0. run_monad. by destruct (scopes w0 !! scope). }
  exists w'. split; [exact Hrun|]. split; [exact Hhubs|].
  rewrite Hscopes. split; reflexivity.
Defined.

Lemma Hub__init__shares_a_given_scope_witness :
  hubs initial_world !! GLOBAL_HUB = Some (mkHub [(None, 0%nat)] None []) ∧
  scopes initial_world !! 0%nat = Some (mkScope ∅ [] 0%nat) ∧
  (∃ w',
     (new ← Hub__init__ (Some (inl GLOBAL_HUB)) (Some 0%nat);
      scope ← scope new;
      set_tag scope "k" "v";;
      client new) initial_world = (Return None, w') ∧
     hubs w' !! GLOBAL_HUB = Some (mkHub [(None, 0%nat)] None []) ∧
     _tags <$> scopes w' !! 0%nat = Some (<["k"%string := "v"%string]> ∅)) ∧
  (∃ w',
     (new ← Hub__init__ (Some (inl GLOBAL_HUB)) None;
      scope ← scope new;
      set_tag scope "k" "v";;
      client new) initial_world = (Return None, w') ∧
     hubs w' !! GLOBAL_HUB = Some (mkHub [(None, 0%nat)] None []) ∧
     scopes w' !! 0%nat = Some (mkScope ∅ [] 0%nat)).
Proof.
  assert (hubs initial_world !! GLOBAL_HUB = Some (mkHub [(None, 0%nat)] None []))
    as Hh by reflexivity.
  assert (scopes initial_world !! 0%nat = Some (mkScope ∅ [] 0%nat))
    as Hs by reflexivity.
  split; [exact Hh|]. split; [exact Hs|].
  exact (proj1 (Hub__init__shares_a_given_scope initial_world GLOBAL_HUB _ None
                  0%nat _ "k"%string "v"%string Hh Hs) eq_refl).
Defined.

Lemma Hub__exit__without_enter_and_enter_unbound_witness :
  hubs initial_world !! GLOBAL_HUB = Some (mkHub [(None, 0%nat)] None []) ∧
  Hub__exit__ 0%nat GLOBAL_HUB initial_world = (Raise IndexError, initial_world) ∧
  _local initial_world !! 1%nat = None ∧
  ∃ w1 w2,
    Hub__enter__ 1%nat GLOBAL_HUB initial_world = (Return GLOBAL_HUB, w1) ∧
    Hub__exit__ 1%nat GLOBAL_HUB w1 = (Return tt, w2) ∧
    _local w2 !! 1%nat = Some 1%nat.
Proof.
  assert (hubs initial_world !! GLOBAL_HUB = Some (mkHub [(None, 0%nat)] None []))
    as Hh by reflexivity.
  split; [exact Hh|].
  destruct (Hub__exit__without_enter_and_enter_unbound 0%nat GLOBAL_HUB
              initial_world _ Hh) as [Hexit _].
  split; [exact (Hexit eq_refl)|]. split; [reflexivity|].
  destruct (Hub__exit__without_enter_and_enter_unbound 1%nat GLOBAL_HUB
              initial_world _ Hh) as [_ Henter].
  destruct (Henter 1%nat (snd (current 1%nat initial_world)) eq_refl eq_refl)
    as (_ & _ & w1 & w2 & Hin & _ & _ & _ & Hout & Hloc & _).
  exists w1, w2. repeat split; assumption.
Defined.

Lemma run_gives_callback_outcome_witness :
  ∃ w',
    run 0%nat GLOBAL_HUB (mret 5%nat) initial_world = (Return 5%nat, w') ∧
    _local w' !! 0%nat = Some GLOBAL_HUB ∧
    ∃ h', hubs w' !! GLOBAL_HUB = Some h' ∧ _old_hubs h' = [].
Proof.
  destruct (run_gives_callback_outcome 0%nat GLOBAL_HUB (mret 5%nat : M nat)
              initial_world GLOBAL_HUB initial_world
              (mkHub [(None, 0%nat)] None []) eq_refl eq_refl)
    as (_ & Hrun).
  { intros w. simpl. reflexivity. }
  exact Hrun.
Defined.

Lemma breadcrumbs_without_client_are_dropped_witness :
  add_breadcrumbs GLOBAL_HUB ["a"; "b"]%string initial_world =
    (Return tt,
     mkWorld (hubs initial_world) (scopes initial_world) (_local initial_world)
       (logger initial_world ++
        replicate 2 (INFO, Dropped_breadcrumb_because_no_client_bound))
       (trace_ids initial_world)).
Proof.
  apply (breadcrumbs_without_client_are_dropped GLOBAL_HUB ["a"; "b"]%string
           initial_world (mkHub [(None, 0%nat)] None []) 0%nat); reflexivity.
Defined.

Lemma get_integration_implies_client_witness :
  @get_integration collaborators_example GLOBAL_HUB "excepthook" world_with_client
    = (Return (Some (mkIntegration "excepthook" false)), world_with_client) ∧
  ∃ c, client GLOBAL_HUB world_with_client = (Return (Some c), world_with_client) ∧
       @Client_get_integration collaborators_example c "excepthook" =
         Some (mkIntegration "excepthook" false).
Proof.
  assert (@get_integration collaborators_example GLOBAL_HUB "excepthook"
            world_with_client
          = (Return (Some (mkIntegration "excepthook" false)), world_with_client))
    as Hget by reflexivity.
  split; [exact Hget|].
  exact (proj2 (@get_integration_implies_client collaborators_example GLOBAL_HUB
                  "excepthook" world_with_client _ _ Hget)).
Defined.

Lemma init_binds_client_on_current_hub_witness :
  _local initial_world !! 1%nat = None ∧
  ∃ w',
    _init 1%nat 7%nat initial_world = (Return (mk_InitGuard (Some 7%nat)), w') ∧
    client 1%nat w' = (Return (Some 7%nat), w') ∧
    hubs w' !! GLOBAL_HUB = Some (mkHub [(None, 0%nat)] None []).
Proof.
  split; [reflexivity|].
  destruct (init_binds_client_on_current_hub 1%nat 7%nat initial_world 1%nat
              (snd (current 1%nat initial_world))
              (mkHub [(None, 1%nat)] None []) [] None 1%nat
              eq_refl eq_refl eq_refl)
    as (w' & Hrun & _ & Hclient & _ & _ & Hold).
  exists w'. split; [exact Hrun|]. split; [exact Hclient|].
  apply (Hold eq_refl). reflexivity.
Defined.

Lemma excepthook_always_chains_witness :
  ∃ w',
    @sentry_sdk_excepthook capture_all collaborators_example unit 0%nat
      (λ _, mret tt) "boom" world_with_client = (Return tt, w') ∧
    w' = snd (@capture_event capture_all GLOBAL_HUB
                (<["exception"%string := "boom"%string]> ∅) (Some "boom"%string)
                None ∅ world_with_client) ∧
    _last_event_id <$> hubs w' !! GLOBAL_HUB = Some (Some "e1"%string).
Proof.
  destruct (@excepthook_always_chains capture_all collaborators_example unit
              0%nat (λ _, mret tt) "boom"%string world_with_client GLOBAL_HUB
              world_with_client (mkHub [(Some 7%nat, 0%nat)] None [])
              (Some 7%nat) 0%nat eq_refl eq_refl eq_refl)
    as (w' & Hrun & _ & Hreport).
  { intros e w0. by exists w0. }
  exists w'. split; [exact Hrun|].
  pose proof (Hreport eq_refl _ _ eq_refl) as Hw'.
  split; [exact Hw'|]. rewrite Hw'. reflexivity.
Defined.

Lemma last_event_id_outlives_pushed_scope_witness :
  ∃ w',
    (g ← push_scope GLOBAL_HUB true;
     bind_client GLOBAL_HUB (Some 7%nat);;
     r ← @capture_message capture_all GLOBAL_HUB "hi" None None ∅;
     _ScopeManager__exit__ g;;
     i ← last_event_id GLOBAL_HUB;
     mret (r, i)) initial_world = (Return (Some "e1"%string, Some "e1"%string), w') ∧
    hubs w' !! GLOBAL_HUB =
      Some (mkHub [(None, 0%nat)] (Some "e1"%string) []).
Proof.
  apply (@last_event_id_outlives_pushed_scope capture_all GLOBAL_HUB true 7%nat
           "hi"%string None None ∅ initial_world
           (mkHub [(None, 0%nat)] None []) None 0%nat (mkScope ∅ [] 0%nat));
    reflexivity.
Defined.

Lemma contexts_get_separate_hubs_witness :
  ∃ h1 h2 w',
    (a ← current 1%nat; b ← current 2%nat; mret (a, b)) initial_world =
      (Return (h1, h2), w') ∧
    h1 ≠ h2 ∧ h1 ≠ GLOBAL_HUB ∧ h2 ≠ GLOBAL_HUB ∧
    current 1%nat w' = (Return h1, w') ∧ current 2%nat w' = (Return h2, w').
Proof.
  destruct (contexts_get_separate_hubs 1%nat 2%nat initial_world
              (mkHub [(None, 0%nat)] None []) None 0%nat (mkScope ∅ [] 0%nat))
    as (h1 & h2 & s1 & s2 & w' & Hrun & Hne & Hg1 & Hg2 & _ & _ & _ & _ & _ &
        _ & _ & _ & _ & Hc1 & Hc2); try reflexivity.
  { lia. }
  exists h1, h2, w'. repeat split; assumption.
Defined.
